(** * LegalDocumentProcessingSystem: clause extraction, term frequency, insights

    A shallow embedding of [LegalDocumentProcessingSystem.py].  The spaCy
    pipeline [nlp] is an external collaborator: it is a parameter of the
    development (a function from raw text to an annotated document), and every
    theorem holds for every annotator; an annotator that raises aborts the
    call, and the embedding describes the calls on which it returns.  Python
    strings are modelled as [string]; [str.lower], [str.strip] and the [(?i)]
    flag of [re] act on the ASCII range.  The [Counter], whose iteration order
    decides the ties of the ranking, and the pattern table are association
    lists in insertion order; the other dicts are [gmap]s.  The methods are
    given twice: as functions of the attributes they read, and as bodies over
    the attribute store of the object, which is what a sequence of calls
    threads; the two agree on every object ([*_m_spec]). *)

From Stdlib Require Import ZArith Ascii String List Sorting.Permutation.
From stdpp Require Import gmap strings list fin_maps sorting.

Open Scope string_scope.
Open Scope list_scope.

(** ** Strings *)

Module Str.

(** [c.lower()] for one character. *)
Definition lower_ascii (c : ascii) : ascii :=
  let n := N_of_ascii c in
  if ((65 <=? n) && (n <=? 90))%N then ascii_of_N (n + 32) else c.

(** [s.lower()] *)
Fixpoint lower (s : string) : string :=
  match s with
  | EmptyString => EmptyString
  | String c s' => String (lower_ascii c) (lower s')
  end.

(** [s.startswith(p)] *)
Fixpoint startswith (p s : string) : bool :=
  match p, s with
  | EmptyString, _ => true
  | String a p', String b s' => if Ascii.eqb a b then startswith p' s' else false
  | String _ _, EmptyString => false
  end.

(** [needle in hay] *)
Fixpoint contains (needle hay : string) : bool :=
  startswith needle hay ||
  match hay with
  | EmptyString => false
  | String _ hay' => contains needle hay'
  end.

(** The characters [str.strip] removes (ASCII range): tab, line feed,
    vertical tab, form feed, carriage return, the four separators
    [0x1c]-[0x1f] and the space. *)
Definition isspace (c : ascii) : bool :=
  let n := N_of_ascii c in
  (((9 <=? n) && (n <=? 13)) || ((28 <=? n) && (n <=? 32)))%N.

Fixpoint lstrip (s : string) : string :=
  match s with
  | EmptyString => EmptyString
  | String c s' => if isspace c then lstrip s' else s
  end.

Fixpoint rstrip (s : string) : string :=
  match s with
  | EmptyString => EmptyString
  | String c s' =>
      match rstrip s' with
      | EmptyString => if isspace c then EmptyString else String c EmptyString
      | r => String c r
      end
  end.

(** [s.strip()] *)
Definition strip (s : string) : string := rstrip (lstrip s).

(** [sep.join(l)] *)
Fixpoint join (sep : string) (l : list string) : string :=
  match l with
  | [] => EmptyString
  | [s] => s
  | s :: rest => (s ++ sep ++ join sep rest)%string
  end.

End Str.

(** ** Regular expressions: the fragment of [re] the clause patterns use *)

Module Re.

Inductive regex : Type :=
| Lit (s : string)          (* a literal run of characters *)
| Alt (r1 r2 : regex)       (* r1|r2 *)
| Cat (r1 r2 : regex)       (* r1r2 *)
| Opt (r : regex)           (* (r)? *)
| DotUpTo (n : nat).        (* .{0,n} *)

(** A compiled pattern: the inline flag [(?i)] and the expression. *)
Record pattern : Type := Pattern { ignorecase : bool; body : regex }.

Definition chr_eq (ic : bool) (a b : ascii) : bool :=
  if ic then Ascii.eqb (Str.lower_ascii a) (Str.lower_ascii b) else Ascii.eqb a b.

(** Consume the literal [l] at the head of [s]; the rest of [s] on success. *)
Fixpoint match_lit (ic : bool) (l s : string) : option string :=
  match l, s with
  | EmptyString, _ => Some s
  | String a l', String b s' => if chr_eq ic a b then match_lit ic l' s' else None
  | String _ _, EmptyString => None
  end.

Definition is_newline (c : ascii) : bool := Ascii.eqb c "010"%char.

(** [.{0,n}] followed by the continuation [k]: [.] matches any character
    but a line feed; longest repetition first, then shorter ones. *)
Fixpoint match_dots (n : nat) (s : string) (k : string → bool) : bool :=
  match n, s with
  | S n', String c s' =>
      (if is_newline c then false else match_dots n' s' k) || k s
  | _, _ => k s
  end.

(** Backtracking match of [r] at the head of [s], then [k] on the rest. *)
Fixpoint match_here (ic : bool) (r : regex) (s : string) (k : string → bool) : bool :=
  match r with
  | Lit l => match match_lit ic l s with Some s' => k s' | None => false end
  | Alt r1 r2 => match_here ic r1 s k || match_here ic r2 s k
  | Cat r1 r2 => match_here ic r1 s (λ s', match_here ic r2 s' k)
  | Opt r1 => match_here ic r1 s k || k s
  | DotUpTo n => match_dots n s k
  end.

Fixpoint search_from (ic : bool) (r : regex) (s : string) : bool :=
  match_here ic r s (λ _, true) ||
  match s with
  | EmptyString => false
  | String _ s' => search_from ic r s'
  end.

(** [bool(re.search(p, s))] *)
Definition search (p : pattern) (s : string) : bool :=
  search_from (ignorecase p) (body p) s.

End Re.

(** ** The annotated document the annotator returns *)

Record Chunk : Type := { chunk_text : string }.

Record Sentence : Type := {
  sent_text : string;
  sent_noun_chunks : list Chunk
}.

Record Entity : Type := { ent_text : string; ent_label_ : string }.

Record Doc : Type := {
  tokens : list string;        (* len(doc) is the number of tokens *)
  sents : list Sentence;       (* doc.sents *)
  noun_chunks : list Chunk;    (* doc.noun_chunks *)
  ents : list Entity           (* doc.ents *)
}.

(** ** The processor object *)

Record TfidfVectorizer : Type := {
  stop_words : string;
  ngram_range : nat * nat;
  max_features : nat
}.

Record LegalDocumentProcessor : Type := {
  legal_terms : gset string;
  tfidf : TfidfVectorizer
}.

(** [LegalDocumentProcessor.__init__] *)
Definition __init__ : LegalDocumentProcessor := {|
  legal_terms := list_to_set
    [ "liability"; "indemnification"; "termination"; "warranty";
      "confidentiality"; "arbitration"; "jurisdiction"; "force majeure" ];
  tfidf := {| stop_words := "english"; ngram_range := (1%nat, 3%nat);
              max_features := 1000%nat |}
|}.

(** The [patterns] literal of [extract_clauses], in insertion order. *)
Definition patterns : list (string * Re.pattern) :=
  [ ("termination",
     Re.Pattern true
       (Re.Cat (Re.Alt (Re.Cat (Re.Lit "terminat") (Re.Alt (Re.Lit "e") (Re.Lit "ion")))
                       (Re.Cat (Re.Lit "cancel") (Re.Opt (Re.Lit "lation"))))
               (Re.DotUpTo 200)));
    ("liability",
     Re.Pattern true
       (Re.Cat (Re.Alt (Re.Cat (Re.Lit "liab") (Re.Alt (Re.Lit "le") (Re.Lit "ility")))
                       (Re.Cat (Re.Lit "indemnif") (Re.Alt (Re.Lit "y") (Re.Lit "ication"))))
               (Re.DotUpTo 200)));
    ("confidentiality",
     Re.Pattern true
       (Re.Cat (Re.Alt (Re.Cat (Re.Lit "confidential") (Re.Opt (Re.Lit "ity")))
                       (Re.Lit "non-disclosure"))
               (Re.DotUpTo 200))) ].

(** [d[key].append(x)] on a dict of lists; [None] is the [KeyError] of a
    missing key. *)
Definition dict_append (d : gmap string (list string)) (key x : string)
    : option (gmap string (list string)) :=
  match d !! key with
  | Some l => Some (<[key := l ++ [x]]> d)
  | None => None
  end.

(** The inner loop [for sentence in sentences]. *)
Fixpoint scan_sentences (clause_type : string) (pattern : Re.pattern)
    (sentences : list string) (clauses : gmap string (list string))
    : option (gmap string (list string)) :=
  match sentences with
  | [] => Some clauses
  | sentence :: rest =>
      if Re.search pattern sentence
      then match dict_append clauses clause_type sentence with
           | Some clauses' => scan_sentences clause_type pattern rest clauses'
           | None => None
           end
      else scan_sentences clause_type pattern rest clauses
  end.

(** The outer loop [for clause_type, pattern in patterns.items()]. *)
Fixpoint scan_patterns (pats : list (string * Re.pattern))
    (sentences : list string) (clauses : gmap string (list string))
    : option (gmap string (list string)) :=
  match pats with
  | [] => Some clauses
  | (clause_type, pattern) :: rest =>
      match scan_sentences clause_type pattern sentences clauses with
      | Some clauses' => scan_patterns rest sentences clauses'
      | None => None
      end
  end.

(** ** Term counting, ranking and slicing *)

(** One [Counter] update: bump the entry of [term], or add it at the end. *)
Fixpoint counter_incr (term : string) (c : list (string * Z)) : list (string * Z) :=
  match c with
  | [] => [(term, 1%Z)]
  | (k, n) :: c' =>
      if String.eqb k term then (k, (n + 1)%Z) :: c' else (k, n) :: counter_incr term c'
  end.

(** [Counter(all_terms).items()]: the entries in first-insertion order. *)
Definition Counter (all_terms : list string) : list (string * Z) :=
  fold_left (λ c term, counter_incr term c) all_terms [].

(** Insert [x] in a list sorted by decreasing count, before the first entry
    whose count is not above the count of [x]. *)
Fixpoint insert_desc (x : string * Z) (l : list (string * Z)) : list (string * Z) :=
  match l with
  | [] => [x]
  | y :: l' => if (x.2 <? y.2)%Z then y :: insert_desc x l' else x :: y :: l'
  end.

(** [sorted(items, key=lambda x: x[1], reverse=True)]: the stable sort by
    decreasing count (entries of equal count keep their order). *)
Definition sorted_by_count_desc (items : list (string * Z)) : list (string * Z) :=
  foldr insert_desc [] items.

(** [l[:n]]: a negative [n] counts from the end. *)
Definition slice_to {A} (l : list A) (n : Z) : list A :=
  if (n <? 0)%Z
  then take (Z.to_nat (Z.of_nat (length l) + n)) l
  else take (Z.to_nat n) l.

(** ** Vocabulary of the statements *)

(** The distinct terms of a list, in order of first appearance. *)
Definition first_seen (l : list string) : list string :=
  fold_left (λ seen t, if decide (t ∈ seen) then seen else seen ++ [t]) l [].

(** The number of occurrences of [term] in [l]. *)
Definition count_of (term : string) (l : list string) : Z :=
  Z.of_nat (length (filter (λ x, x = term) l)).

(** The position of the first occurrence of [term] in [l]. *)
Definition first_index (term : string) (l : list string) : option nat :=
  fst <$> list_find (λ x, x = term) l.

(** The order of a ranked list: counts do not increase. *)
Definition count_ge (a b : string * Z) : Prop := (b.2 ≤ a.2)%Z.

(** Multiply the count of an entry by [k]. *)
Definition scale_count (k : Z) (item : string * Z) : string * Z :=
  (item.1, (k * item.2)%Z).

(** The texts of the sentences with more than three noun chunks, in
    document order. *)
Definition dense_sentences (doc : Doc) : list string :=
  map sent_text
      (filter (λ sent, (3 < length (sent_noun_chunks sent))%nat) (sents doc)).

(** The texts of the entities labelled [label], in document order. *)
Definition entities_of (label : string) (es : list Entity) : list string :=
  map ent_text (filter (λ ent, ent_label_ ent = label) es).

(** ** The process pool

    [completion] is the order in which the workers finish their tasks (task
    [i] is document [i]); each finished task stores its result in the future
    of its index.  [executor.map] then yields the futures in submission order;
    [None] is a future that never completes. *)

Definition run_workers {B} (f : string → B) (documents : list string)
    (completion : list nat) : gmap nat B :=
  fold_left
    (λ futures i,
       match documents !! i with
       | Some d => <[i := f d]> futures
       | None => futures
       end)
    completion ∅.

(** [list(executor.map(f, documents))] *)
Definition executor_map {B} (completion : list nat) (f : string → B)
    (documents : list string) : option (list B) :=
  let futures := run_workers f documents completion in
  mapM (λ i, futures !! i) (seq 0 (length documents)).

(** Every task finishes exactly once. *)
Definition complete (completion : list nat) (documents : list string) : Prop :=
  Permutation completion (seq 0 (length documents)).

(** ** The report of [get_document_insights] *)

Record DocumentStats : Type := {
  total_words : nat;
  sentences : nat;
  entities : gmap string (list string)
}.

Record Insights : Type := {
  summary : string;
  key_clauses : gmap string (list string);
  document_stats : DocumentStats
}.

(** [any(legal_term in s.lower() for legal_term in self.legal_terms)] *)
Definition any_legal_term (self : LegalDocumentProcessor) (s : string) : bool :=
  existsb (λ legal_term, Str.contains legal_term (Str.lower s))
          (elements (legal_terms self)).

(** ** Method bodies over the attributes of the object *)

(** What an attribute can hold. *)
Inductive attr_value : Type :=
| VTerms (terms : gset string)
| VVectorizer (v : TfidfVectorizer)
| VPatterns (table : list (string * Re.pattern)).

(** [self.__dict__] *)
Abbreviation object := (gmap string attr_value).

(** A method body maps the attributes before it to its result ([None]: an
    exception) and the attributes after it. *)
Definition Method (A : Type) : Type := object → option A * object.

Definition ret {A} (a : A) : Method A := λ σ, (Some a, σ).

Definition bind {A B} (m : Method A) (f : A → Method B) : Method B :=
  λ σ, match m σ with
       | (Some a, σ') => f a σ'
       | (None, σ') => (None, σ')
       end.

(** A computation that does not touch [self]. *)
Definition lift {A} (o : option A) : Method A := λ σ, (o, σ).

(** A copy of the object. *)
Definition snapshot : Method object := λ σ, (Some σ, σ).

(** [self.name = v] *)
Definition setattr (name : string) (v : attr_value) : Method unit :=
  λ σ, (Some tt, <[name := v]> σ).

(** [for x in l: acc = body(acc, x)] *)
Fixpoint for_each {A B} (l : list A) (acc : B) (body : B → A → Method B) : Method B :=
  match l with
  | [] => ret acc
  | x :: rest => bind (body acc x) (λ acc', for_each rest acc' body)
  end.

(** A method body that leaves every attribute as it found it. *)
Definition preserves {A} (m : Method A) : Prop := ∀ σ, (m σ).2 = σ.

(** The object whose attributes are the fields of [self]. *)
Definition object_of (self : LegalDocumentProcessor) : object :=
  <["tfidf" := VVectorizer (tfidf self)]>
    (<["legal_terms" := VTerms (legal_terms self)]> ∅).

Section Processor.

(** The annotator [nlp = spacy.load("en_core_web_sm")]. *)
Variable nlp : string → Doc.

(** The sentences [extract_clauses] tests: the stripped texts of the
    sentence spans, in document order. *)
Definition stripped_sentences (document : string) : list string :=
  map (λ sent, Str.strip (sent_text sent)) (sents (nlp document)).

(** [extract_clauses] *)
Definition extract_clauses (self : LegalDocumentProcessor) (document : string)
    : option (gmap string (list string)) :=
  let clauses : gmap string (list string) :=
    <["confidentiality" := []]> (<["liability" := []]> (<["termination" := []]> ∅)) in
  let doc := nlp document in
  let sentences := map (λ sent, Str.strip (sent_text sent)) (sents doc) in
  scan_patterns patterns sentences clauses.

(** [_process_single_doc] *)
Definition _process_single_doc (self : LegalDocumentProcessor) (document : string)
    : list string :=
  let doc := nlp document in
  fold_left
    (λ terms chunk,
       if any_legal_term self (chunk_text chunk)
       then terms ++ [Str.lower (chunk_text chunk)]
       else terms)
    (noun_chunks doc) [].

(** Lines 78-89 of [analyze_term_frequency]: merge, count, filter, rank. *)
Definition rank_terms (self : LegalDocumentProcessor)
    (processed_docs : list (list string)) (top_n : Z) : list (string * Z) :=
  let all_terms := fold_left (λ acc doc_terms, acc ++ doc_terms) processed_docs [] in
  let term_freq := Counter all_terms in
  let legal_term_freq :=
    filter (λ item : string * Z, any_legal_term self item.1 = true) term_freq in
  slice_to (sorted_by_count_desc legal_term_freq) top_n.

(** [rank_terms] without the dict comprehension of lines 86-87: the counter
    is ranked as it is. *)
Definition rank_terms_unfiltered
    (processed_docs : list (list string)) (top_n : Z) : list (string * Z) :=
  let all_terms := fold_left (λ acc doc_terms, acc ++ doc_terms) processed_docs [] in
  let term_freq := Counter all_terms in
  slice_to (sorted_by_count_desc term_freq) top_n.

(** [analyze_term_frequency] *)
Definition analyze_term_frequency (self : LegalDocumentProcessor)
    (completion : list nat) (documents : list string) (top_n : Z)
    : option (list (string * Z)) :=
  match executor_map completion (_process_single_doc self) documents with
  | Some processed_docs => Some (rank_terms self processed_docs top_n)
  | None => None
  end.

(** [analyze_term_frequency] with the aggregation-stage filter removed. *)
Definition analyze_term_frequency_unfiltered (self : LegalDocumentProcessor)
    (completion : list nat) (documents : list string) (top_n : Z)
    : option (list (string * Z)) :=
  match executor_map completion (_process_single_doc self) documents with
  | Some processed_docs => Some (rank_terms_unfiltered processed_docs top_n)
  | None => None
  end.

(** The merged term list: the terms of every document, in document order. *)
Definition all_terms (self : LegalDocumentProcessor) (documents : list string)
    : list string :=
  concat (map (_process_single_doc self) documents).

(** The entries that survive the aggregation-stage filter, before ranking. *)
Definition legal_term_freq (self : LegalDocumentProcessor) (documents : list string)
    : list (string * Z) :=
  filter (λ item : string * Z, any_legal_term self item.1 = true)
         (Counter (all_terms self documents)).

(** [_generate_summary] *)
Definition _generate_summary (self : LegalDocumentProcessor) (doc : Doc) : string :=
  let important_sentences :=
    fold_left
      (λ acc sent,
         if (3 <? length (sent_noun_chunks sent))%nat
         then acc ++ [sent_text sent]
         else acc)
      (sents doc) [] in
  Str.join " " (take 3 important_sentences).

(** One round of the loop of [_extract_entities]. *)
Definition add_entity (entities : gmap string (list string)) (ent : Entity)
    : option (gmap string (list string)) :=
  let entities' :=
    match entities !! ent_label_ ent with
    | None => <[ent_label_ ent := []]> entities
    | Some _ => entities
    end in
  dict_append entities' (ent_label_ ent) (ent_text ent).

(** [_extract_entities] *)
Definition _extract_entities (self : LegalDocumentProcessor) (doc : Doc)
    : option (gmap string (list string)) :=
  fold_left
    (λ acc ent, match acc with Some entities => add_entity entities ent | None => None end)
    (ents doc) (Some ∅).

(** [get_document_insights] *)
Definition get_document_insights (self : LegalDocumentProcessor) (document : string)
    : option Insights :=
  let doc := nlp document in
  let summary_ := _generate_summary self doc in
  match extract_clauses self document with
  | Some clauses =>
      match _extract_entities self doc with
      | Some entities_ =>
          Some {| summary := summary_;
                  key_clauses := clauses;
                  document_stats :=
                    {| total_words := length (tokens doc);
                       sentences := length (sents doc);
                       entities := entities_ |} |}
      | None => None
      end
  | None => None
  end.

(** ** The processor as a mutable object

    The attributes of the object ([self.__dict__]) are a store that every
    method body receives and hands back; [None] as a result is a raised
    exception, which leaves the attributes as they are at that point. *)

(** [self.legal_terms], read; anything but a set of strings there raises. *)
Definition get_legal_terms : Method (gset string) :=
  λ σ, match σ !! "legal_terms" with
       | Some (VTerms terms) => (Some terms, σ)
       | _ => (None, σ)
       end.

(** [any(legal_term in s.lower() for legal_term in self.legal_terms)] *)
Definition any_legal_term_m (s : string) : Method bool :=
  bind get_legal_terms (λ terms,
  ret (existsb (λ legal_term, Str.contains legal_term (Str.lower s))
               (elements terms))).

(** The body of [__init__]. *)
Definition init : Method unit :=
  bind (setattr "legal_terms"
          (VTerms (list_to_set
             [ "liability"; "indemnification"; "termination"; "warranty";
               "confidentiality"; "arbitration"; "jurisdiction"; "force majeure" ])))
       (λ _,
  setattr "tfidf"
    (VVectorizer {| stop_words := "english"; ngram_range := (1%nat, 3%nat);
                    max_features := 1000%nat |})).

(** [LegalDocumentProcessor()]: a fresh object after [__init__]. *)
Definition new_processor : object := (init ∅).2.

(** The body of [extract_clauses]: it does not touch [self]. *)
Definition extract_clauses_m (document : string)
    : Method (gmap string (list string)) :=
  let clauses : gmap string (list string) :=
    <["confidentiality" := []]> (<["liability" := []]> (<["termination" := []]> ∅)) in
  let doc := nlp document in
  let sentences := map (λ sent, Str.strip (sent_text sent)) (sents doc) in
  lift (scan_patterns patterns sentences clauses).

(** The body of [_process_single_doc]. *)
Definition _process_single_doc_m (document : string) : Method (list string) :=
  let doc := nlp document in
  for_each (noun_chunks doc) []
    (λ terms chunk,
       bind (any_legal_term_m (chunk_text chunk)) (λ legal,
       ret (if legal then terms ++ [Str.lower (chunk_text chunk)] else terms))).

(** The body of [analyze_term_frequency].  The bound method is pickled for
    the pool: every worker runs it on its own copy of the object, and only
    its result comes back. *)
Definition analyze_term_frequency_m (completion : list nat)
    (documents : list string) (top_n : Z) : Method (list (string * Z)) :=
  bind snapshot (λ copy,
  bind (lift (executor_map completion
                (λ d, (_process_single_doc_m d copy).1) documents)) (λ results,
  bind (lift (mapM id results)) (λ processed_docs,
  let all_terms := fold_left (λ acc doc_terms, acc ++ doc_terms) processed_docs [] in
  let term_freq := Counter all_terms in
  bind (for_each term_freq []
          (λ kept (item : string * Z),
             bind (any_legal_term_m item.1) (λ legal,
             ret (if legal then kept ++ [item] else kept)))) (λ legal_term_freq,
  ret (slice_to (sorted_by_count_desc legal_term_freq) top_n))))).

(** The body of [_generate_summary]: it does not touch [self]. *)
Definition _generate_summary_m (doc : Doc) : Method string :=
  let important_sentences :=
    fold_left
      (λ acc sent,
         if (3 <? length (sent_noun_chunks sent))%nat
         then acc ++ [sent_text sent]
         else acc)
      (sents doc) [] in
  ret (Str.join " " (take 3 important_sentences)).

(** The body of [_extract_entities]: it does not touch [self]. *)
Definition _extract_entities_m (doc : Doc) : Method (gmap string (list string)) :=
  lift (fold_left
          (λ acc ent, match acc with
                      | Some entities => add_entity entities ent
                      | None => None
                      end)
          (ents doc) (Some ∅)).

(** The body of [get_document_insights]. *)
Definition get_document_insights_m (document : string) : Method Insights :=
  let doc := nlp document in
  bind (_generate_summary_m doc) (λ summary_,
  bind (extract_clauses_m document) (λ clauses,
  bind (_extract_entities_m doc) (λ entities_,
  ret {| summary := summary_;
         key_clauses := clauses;
         document_stats :=
           {| total_words := length (tokens doc);
              sentences := length (sents doc);
              entities := entities_ |} |}))).

(** ** Sequences of calls on one processor object *)

Inductive call : Type :=
| ExtractClauses (document : string)
| AnalyzeTermFrequency (completion : list nat) (documents : list string) (top_n : Z)
| GetDocumentInsights (document : string).

Inductive response : Type :=
| Clauses (r : option (gmap string (list string)))
| RankedTerms (r : option (list (string * Z)))
| DocumentInsights (r : option Insights).

(** One call: the response, and the attributes the method body leaves. *)
Definition step (σ : object) (c : call) : response * object :=
  match c with
  | ExtractClauses document =>
      let '(r, σ') := extract_clauses_m document σ in (Clauses r, σ')
  | AnalyzeTermFrequency completion documents top_n =>
      let '(r, σ') := analyze_term_frequency_m completion documents top_n σ in
      (RankedTerms r, σ')
  | GetDocumentInsights document =>
      let '(r, σ') := get_document_insights_m document σ in
      (DocumentInsights r, σ')
  end.

Fixpoint run (σ : object) (calls : list call) : list response * object :=
  match calls with
  | [] => ([], σ)
  | c :: rest =>
      let '(r, σ') := step σ c in
      let '(rs, σ'') := run σ' rest in
      (r :: rs, σ'')
  end.

End Processor.

(** ** A table-driven annotator for the examples

    Two documents with a fixed annotation; every other text is annotated as
    the empty document. *)

Module Sample.

Definition contract : string :=
  "This Agreement may be terminated by either party upon 30 days written notice. The Company shall not be liable for any indirect damages. All confidential information shall be kept strictly confidential for a period of 5 years.".

Definition policy : string :=
  "Limitation of Liability survives termination of this Agreement. The liability cap and the Warranty period are set in Schedule A by Acme Corp. Liability is capped.".

Definition chunks (l : list string) : list Chunk := map Build_Chunk l.

Definition contract_doc : Doc := {|
  tokens :=
    [ "This"; "Agreement"; "may"; "be"; "terminated"; "by"; "either"; "party";
      "upon"; "30"; "days"; "written"; "notice"; ".";
      "The"; "Company"; "shall"; "not"; "be"; "liable"; "for"; "any";
      "indirect"; "damages"; ".";
      "All"; "confidential"; "information"; "shall"; "be"; "kept"; "strictly";
      "confidential"; "for"; "a"; "period"; "of"; "5"; "years"; "." ];
  sents :=
    [ {| sent_text := "This Agreement may be terminated by either party upon 30 days written notice.";
         sent_noun_chunks := chunks ["This Agreement"; "either party"; "30 days written notice"] |};
      {| sent_text := "The Company shall not be liable for any indirect damages.";
         sent_noun_chunks := chunks ["The Company"; "any indirect damages"] |};
      {| sent_text := "All confidential information shall be kept strictly confidential for a period of 5 years.";
         sent_noun_chunks := chunks ["All confidential information"; "a period"; "5 years"] |} ];
  noun_chunks :=
    chunks [ "This Agreement"; "either party"; "30 days written notice";
             "The Company"; "any indirect damages";
             "All confidential information"; "a period"; "5 years" ];
  ents := [ {| ent_text := "30 days"; ent_label_ := "DATE" |};
            {| ent_text := "5 years"; ent_label_ := "DATE" |} ]
|}.

Definition policy_doc : Doc := {|
  tokens :=
    [ "Limitation"; "of"; "Liability"; "survives"; "termination"; "of"; "this";
      "Agreement"; ".";
      "The"; "liability"; "cap"; "and"; "the"; "Warranty"; "period"; "are";
      "set"; "in"; "Schedule"; "A"; "by"; "Acme"; "Corp.";
      "Liability"; "is"; "capped"; "." ];
  sents :=
    [ {| sent_text := "Limitation of Liability survives termination of this Agreement.";
         sent_noun_chunks := chunks ["Limitation"; "Liability"; "termination"; "this Agreement"] |};
      {| sent_text := "The liability cap and the Warranty period are set in Schedule A by Acme Corp.";
         sent_noun_chunks := chunks ["The liability cap"; "the Warranty period"; "Schedule A"; "Acme Corp."] |};
      {| sent_text := "Liability is capped.";
         sent_noun_chunks := chunks ["Liability"] |} ];
  noun_chunks :=
    chunks [ "Limitation"; "Liability"; "termination"; "this Agreement";
             "The liability cap"; "the Warranty period"; "Schedule A"; "Acme Corp.";
             "Liability" ];
  ents := [ {| ent_text := "Schedule A"; ent_label_ := "LAW" |};
            {| ent_text := "Acme Corp."; ent_label_ := "ORG" |} ]
|}.

Definition nda : string :=
  "Termination does not end the confidentiality and indemnification duties.".

Definition nda_doc : Doc := {|
  tokens :=
    [ "Termination"; "does"; "not"; "end"; "the"; "confidentiality"; "and";
      "indemnification"; "duties"; "." ];
  sents :=
    [ {| sent_text := "Termination does not end the confidentiality and indemnification duties.";
         sent_noun_chunks := chunks ["Termination"; "the confidentiality and indemnification duties"] |} ];
  noun_chunks := chunks ["Termination"; "the confidentiality and indemnification duties"];
  ents := []
|}.

Definition empty_doc : Doc :=
  {| tokens := []; sents := []; noun_chunks := []; ents := [] |}.

Definition nlp (text : string) : Doc :=
  if String.eqb text contract then contract_doc
  else if String.eqb text policy then policy_doc
  else if String.eqb text nda then nda_doc
  else empty_doc.

End Sample.

(** ** Vocabulary of the further statements *)

(** The words an expression built from literals, alternatives, sequences and
    options spells out ([.{0,n}] spells the empty word). *)
Fixpoint regex_words (r : Re.regex) : list string :=
  match r with
  | Re.Lit l => [l]
  | Re.Alt r1 r2 => regex_words r1 ++ regex_words r2
  | Re.Cat r1 r2 =>
      flat_map (λ a, map (String.append a) (regex_words r2)) (regex_words r1)
  | Re.Opt r1 => regex_words r1 ++ [EmptyString]
  | Re.DotUpTo _ => [EmptyString]
  end.

(** An expression without [.{0,n}]. *)
Fixpoint dotless (r : Re.regex) : bool :=
  match r with
  | Re.Lit _ => true
  | Re.Alt r1 r2 | Re.Cat r1 r2 => dotless r1 && dotless r2
  | Re.Opt r1 => dotless r1
  | Re.DotUpTo _ => false
  end.

(** The key words of a clause category. *)
Definition clause_stems (clause_type : string) : list string :=
  if String.eqb clause_type "termination"
  then ["terminate"; "termination"; "cancellation"; "cancel"]
  else if String.eqb clause_type "liability"
  then ["liable"; "liability"; "indemnify"; "indemnification"]
  else if String.eqb clause_type "confidentiality"
  then ["confidentiality"; "confidential"; "non-disclosure"]
  else [].

(** [s], lowercased, contains one of [stems]. *)
Definition contains_any (stems : list string) (s : string) : bool :=
  existsb (λ stem, Str.contains stem (Str.lower s)) stems.

(** [s.isascii()]: every character of [s] is below 128.  On such strings
    [Str.lower], [Str.strip] and [Re.search] are Python's [str.lower],
    [str.strip] and [re.search]. *)
Fixpoint isascii (s : string) : bool :=
  match s with
  | EmptyString => true
  | String (Ascii _ _ _ _ _ _ _ b7) s' => negb b7 && isascii s'
  end.

(** The first character of a string is not white space. *)
Definition starts_clean (s : string) : Prop :=
  match s with
  | EmptyString => True
  | String c _ => Str.isspace c = false
  end.

(** The last character of a string is not white space. *)
Fixpoint ends_clean (s : string) : Prop :=
  match s with
  | EmptyString => True
  | String c EmptyString => Str.isspace c = false
  | String _ s' => ends_clean s'
  end.

Section Corpus.

Variable nlp : string → Doc.

(** The texts of the noun chunks of a corpus, in document order. *)
Definition corpus_chunks (documents : list string) : list string :=
  concat (map (λ d, map chunk_text (noun_chunks (nlp d))) documents).

End Corpus.

(** The number of entity texts a dict of entities holds, over all labels. *)
Definition total_entities (m : gmap string (list string)) : nat :=
  map_fold (λ _ l n, (length l + n)%nat) 0%nat m.

(** The [termination] entry of the pattern table. *)
Definition termination_pattern : Re.pattern :=
  Re.Pattern true
    (Re.Cat (Re.Alt (Re.Cat (Re.Lit "terminat") (Re.Alt (Re.Lit "e") (Re.Lit "ion")))
                    (Re.Cat (Re.Lit "cancel") (Re.Opt (Re.Lit "lation"))))
            (Re.DotUpTo 200)).

(** * Properties *)

(** ** The clause loops *)

Lemma scan_sentences_spec clause_type pattern sentences
    (clauses : gmap string (list string)) l :
  clauses !! clause_type = Some l →
  scan_sentences clause_type pattern sentences clauses =
    Some (<[clause_type :=
              l ++ filter (λ s, Re.search pattern s = true) sentences]> clauses).
Proof.
  revert clauses l.
  induction sentences as [|s rest IH]; intros clauses l Hl; simpl.
  - rewrite filter_nil, app_nil_r, insert_id; done.
  - rewrite filter_cons. destruct (Re.search pattern s) eqn:Hs.
    + unfold dict_append. rewrite Hl.
      rewrite decide_True by done.
      erewrite IH by apply lookup_insert_eq.
      by rewrite insert_insert_eq, <- app_assoc.
    + rewrite decide_False by done. by apply IH.
Qed.

Lemma scan_patterns_spec pats sentences (clauses : gmap string (list string)) :
  NoDup pats.*1 →
  (∀ k, k ∈ pats.*1 → is_Some (clauses !! k)) →
  ∃ m, scan_patterns pats sentences clauses = Some m
     ∧ dom m = dom clauses
     ∧ (∀ k, k ∉ pats.*1 → m !! k = clauses !! k)
     ∧ (∀ k p, (k, p) ∈ pats →
          ∃ l, clauses !! k = Some l
             ∧ m !! k = Some (l ++ filter (λ s, Re.search p s = true) sentences)).
Proof.
  revert clauses.
  induction pats as [|[k0 p0] rest IH]; intros clauses Hnd Hdom; simpl.
  - exists clauses. repeat split; try done. intros k p Hin. by apply elem_of_nil in Hin.
  - simpl in Hnd. apply NoDup_cons in Hnd as [Hk0 Hnd].
    destruct (Hdom k0) as [l0 Hl0]; [by left|].
    rewrite (scan_sentences_spec _ _ _ _ _ Hl0).
    set (clauses' := <[k0 := _]> clauses).
    destruct (IH clauses' Hnd) as (m & Hm & Hd & Hout & Hin).
    { intros k Hk. unfold clauses'. destruct (decide (k0 = k)) as [->|Hne].
      - rewrite lookup_insert_eq. eauto.
      - rewrite lookup_insert_ne by done. apply Hdom. by right. }
    exists m. split; [done|]. split; [|split].
    + rewrite Hd. unfold clauses'. rewrite dom_insert_L.
      apply elem_of_dom_2 in Hl0. set_solver.
    + intros k Hk. simpl in Hk. apply not_elem_of_cons in Hk as [Hne Hk].
      rewrite (Hout k Hk). unfold clauses'. by rewrite lookup_insert_ne.
    + intros k p Hkp. apply elem_of_cons in Hkp as [Heq|Hkp].
      * injection Heq as -> ->. exists l0. split; [done|].
        rewrite (Hout k0 Hk0). unfold clauses'. by rewrite lookup_insert_eq.
      * destruct (Hin k p Hkp) as (l & Hl & Hml).
        assert (k0 ≠ k) as Hne.
        { intros <-. apply Hk0. apply (list_elem_of_fmap_2 fst) in Hkp. done. }
        unfold clauses' in Hl. rewrite lookup_insert_ne in Hl by done. eauto.
Qed.

Lemma patterns_keys : patterns.*1 = ["termination"; "liability"; "confidentiality"].
Proof. reflexivity. Qed.

Lemma patterns_NoDup : NoDup patterns.*1.
Proof.
  rewrite patterns_keys.
  apply (bool_decide_unpack (NoDup ["termination"; "liability"; "confidentiality"])).
  by vm_compute.
Qed.

Section Clauses.

Variable nlp : string → Doc.

Lemma extract_clauses_spec self document :
  ∃ m, extract_clauses nlp self document = Some m
     ∧ dom m = ({["termination"; "liability"; "confidentiality"]} : gset string)
     ∧ (∀ clause_type pattern, (clause_type, pattern) ∈ patterns →
          m !! clause_type =
            Some (filter (λ s, Re.search pattern s = true)
                         (stripped_sentences nlp document))).
Proof.
  unfold extract_clauses.
  set (clauses := <["confidentiality" := _]> _).
  destruct (scan_patterns_spec patterns (stripped_sentences nlp document) clauses
              patterns_NoDup) as (m & Hm & Hd & _ & Hin).
  { intros k Hk. rewrite patterns_keys in Hk. unfold clauses.
    apply elem_of_dom. rewrite !dom_insert_L. set_solver. }
  exists m. split; [exact Hm|]. split.
  - rewrite Hd. unfold clauses. rewrite !dom_insert_L. set_solver.
  - intros k p Hkp. destruct (Hin k p Hkp) as (l & Hl & Hml).
    assert (l = []) as ->; [|done].
    apply (list_elem_of_fmap_2 fst) in Hkp. rewrite patterns_keys in Hkp.
    unfold clauses in Hl. simpl in Hkp.
    repeat (apply elem_of_cons in Hkp as [->|Hkp]; [by vm_compute in Hl; injection Hl|]).
    by apply elem_of_nil in Hkp.
Qed.

(** C1. For every document (the empty one included) [extract_clauses]
    returns a mapping, and its key set is exactly
    {termination, liability, confidentiality}; each key maps to a list of
    sentences of the document, which is empty when the document has no
    sentence. *)
Theorem extract_clauses_keys (self : LegalDocumentProcessor) (document : string) :
  ∃ m : gmap string (list string),
    extract_clauses nlp self document = Some m
    ∧ dom m = ({["termination"; "liability"; "confidentiality"]} : gset string)
    ∧ (∀ k, k ∈ dom m →
         ∃ l : list string,
           m !! k = Some l
           ∧ l `sublist_of` stripped_sentences nlp document
           ∧ (sents (nlp document) = [] → l = [])).
Proof.
  destruct (extract_clauses_spec self document) as (m & Hm & Hd & Hp).
  exists m. repeat split; try done.
  intros k Hk. rewrite Hd in Hk.
  assert (∃ p, (k, p) ∈ patterns) as [p Hkp].
  { assert (k ∈ patterns.*1) as Hin by (rewrite patterns_keys; set_solver).
    apply list_elem_of_fmap in Hin as ([k' p] & -> & Hin). eauto. }
  eexists. split; [by apply Hp|]. split; [apply sublist_filter|].
  unfold stripped_sentences. by intros ->.
Qed.

(** C2. Each category is decided on its own: the list of a category is the
    sub-list of the document's sentences that match that category's pattern,
    in document order, whatever the other categories matched; so a sentence
    is in the list of every category it matches, and of no other. *)
Theorem extract_clauses_per_category (self : LegalDocumentProcessor) (document : string) :
  ∃ m : gmap string (list string),
    extract_clauses nlp self document = Some m
    ∧ ∀ clause_type pattern, (clause_type, pattern) ∈ patterns →
        ∃ l, m !! clause_type = Some l
           ∧ l = filter (λ s, Re.search pattern s = true)
                        (stripped_sentences nlp document)
           ∧ l `sublist_of` stripped_sentences nlp document
           ∧ ∀ s, s ∈ l ↔
                  s ∈ stripped_sentences nlp document ∧ Re.search pattern s = true.
Proof.
  destruct (extract_clauses_spec self document) as (m & Hm & _ & Hin).
  exists m. split; [done|]. intros clause_type pattern Hp.
  eexists. split; [by apply Hin|]. split; [done|]. split.
  - apply sublist_filter.
  - intros s. rewrite list_elem_of_filter. tauto.
Qed.

End Clauses.

(** ** The process pool yields results in submission order *)

Lemma run_workers_lookup {B} (f : string → B) documents completion i :
  run_workers f documents completion !! i =
    if decide (i ∈ completion) then f <$> documents !! i else None.
Proof.
  unfold run_workers.
  enough (∀ futures : gmap nat B,
    fold_left (λ futures i, match documents !! i with
                            | Some d => <[i := f d]> futures
                            | None => futures
                            end) completion futures !! i =
    if decide (i ∈ completion)
    then match documents !! i with Some d => Some (f d) | None => futures !! i end
    else futures !! i) as H.
  { rewrite H, lookup_empty. destruct (documents !! i); by case_decide. }
  induction completion as [|j rest IH]; intros futures; simpl.
  - done.
  - rewrite IH. clear IH.
    destruct (decide (i ∈ rest)) as [Hin|Hin], (decide (i ∈ j :: rest)) as [Hin'|Hin'].
    + destruct (documents !! i) eqn:Hi; [done|].
      destruct (documents !! j) eqn:Hj; [|done].
      rewrite lookup_insert_ne; [done|congruence].
    + exfalso. apply Hin'. by right.
    + apply elem_of_cons in Hin' as [->|?]; [|done].
      destruct (documents !! j); [|done]. by rewrite lookup_insert_eq.
    + destruct (documents !! j); [|done].
      rewrite lookup_insert_ne; [done|]. intros ->. apply Hin'. by left.
Qed.

Lemma executor_map_complete {B} (f : string → B) documents completion :
  complete completion documents →
  executor_map completion f documents = Some (map f documents).
Proof.
  intros Hc. unfold executor_map. apply mapM_Some.
  apply Forall2_same_length_lookup_2.
  - by rewrite length_seq, length_map.
  - intros i j y Hj Hy. apply lookup_seq in Hj as [-> Hlt]. simpl.
    rewrite run_workers_lookup. rewrite decide_True.
    + change (map f documents) with (f <$> documents) in Hy.
      by rewrite list_lookup_fmap in Hy.
    + unfold complete in Hc. rewrite Hc. apply elem_of_seq. lia.
Qed.

Lemma executor_map_ext {B} completion (f g : string → B) documents :
  (∀ d, f d = g d) →
  executor_map completion f documents = executor_map completion g documents.
Proof.
  intros Hfg. unfold executor_map.
  assert (run_workers f documents completion = run_workers g documents completion)
    as ->; [|done].
  apply map_eq. intros i. rewrite !run_workers_lookup.
  case_decide; [|done]. destruct (documents !! i); simpl; [|done]. by rewrite Hfg.
Qed.

Lemma executor_map_Some {B} (f : string → B) documents completion processed :
  executor_map completion f documents = Some processed →
  processed = map f documents.
Proof.
  unfold executor_map. intros H. apply mapM_Some in H.
  apply list_eq_same_length with (length documents).
  - by rewrite length_map.
  - apply Forall2_length in H. by rewrite length_seq in H.
  - intros i x y Hi Hx Hy.
    change (map f documents) with (f <$> documents) in Hy.
    rewrite list_lookup_fmap in Hy.
    destruct (Forall2_lookup_r _ _ _ _ _ H Hx) as (j & Hj & Hfut).
    apply lookup_seq in Hj as [-> _]. simpl in Hfut.
    rewrite run_workers_lookup in Hfut. case_decide; [|done]. congruence.
Qed.

(** ** Merging and per-document extraction *)

Lemma merge_terms (processed_docs : list (list string)) :
  fold_left (λ acc doc_terms, acc ++ doc_terms) processed_docs [] = concat processed_docs.
Proof.
  enough (∀ acc, fold_left (λ acc doc_terms : list string, acc ++ doc_terms)
                   processed_docs acc = acc ++ concat processed_docs) as H by apply H.
  induction processed_docs as [|x l IH]; intros acc; simpl.
  - by rewrite app_nil_r.
  - by rewrite IH, app_assoc.
Qed.

Lemma fold_left_select {A B} (P : A → bool) (g : A → B) (l : list A) (acc : list B) :
  fold_left (λ acc x, if P x then acc ++ [g x] else acc) l acc =
    acc ++ map g (filter (λ x, P x = true) l).
Proof.
  revert acc. induction l as [|x l IH]; intros acc; simpl.
  - by rewrite app_nil_r.
  - rewrite IH, filter_cons. destruct (P x).
    + rewrite decide_True by done. simpl. by rewrite <- app_assoc.
    + by rewrite decide_False by done.
Qed.

(** ** [str.lower] *)

Lemma lower_ascii_idem c : Str.lower_ascii (Str.lower_ascii c) = Str.lower_ascii c.
Proof.
  destruct c as [[] [] [] [] [] [] [] []]; reflexivity.
Qed.

Lemma lower_idem s : Str.lower (Str.lower s) = Str.lower s.
Proof.
  induction s as [|c s IH]; simpl; [done|]. by rewrite lower_ascii_idem, IH.
Qed.

Lemma any_legal_term_lower self s :
  any_legal_term self (Str.lower s) = any_legal_term self s.
Proof. unfold any_legal_term. by rewrite lower_idem. Qed.

Lemma any_legal_term_true self s :
  any_legal_term self s = true ↔
  ∃ legal_term, legal_term ∈ legal_terms self
              ∧ Str.contains legal_term (Str.lower s) = true.
Proof.
  unfold any_legal_term. rewrite existsb_exists. split.
  - intros (t & Hin & Ht). exists t. split; [|done].
    apply elem_of_elements. by apply list_elem_of_In.
  - intros (t & Hin & Ht). exists t. split; [|done].
    apply list_elem_of_In. by apply elem_of_elements.
Qed.

(** ** The counter *)

Lemma first_seen_snoc l x :
  first_seen (l ++ [x]) =
    if decide (x ∈ first_seen l) then first_seen l else first_seen l ++ [x].
Proof. unfold first_seen. by rewrite fold_left_app. Qed.

Lemma first_seen_elem_NoDup l :
  NoDup (first_seen l) ∧ ∀ t, t ∈ first_seen l ↔ t ∈ l.
Proof.
  induction l as [|x l [IHnd IHel]] using rev_ind.
  - split; [constructor|done].
  - rewrite first_seen_snoc. case_decide as Hx.
    + split; [done|]. intros t. rewrite elem_of_app, list_elem_of_singleton, IHel.
      split; [tauto|]. intros [?| ->]; [done|]. by apply IHel.
    + split.
      * apply NoDup_app. split; [done|]. split; [|apply NoDup_singleton].
        intros t Ht ->%list_elem_of_singleton. done.
      * intros t. rewrite !elem_of_app, IHel. done.
Qed.

Lemma first_seen_NoDup l : NoDup (first_seen l).
Proof. apply first_seen_elem_NoDup. Qed.

Lemma elem_of_first_seen l t : t ∈ first_seen l ↔ t ∈ l.
Proof. apply first_seen_elem_NoDup. Qed.

Lemma count_of_snoc t l x :
  count_of t (l ++ [x]) = (count_of t l + if decide (t = x) then 1 else 0)%Z.
Proof.
  unfold count_of. rewrite filter_app, length_app, filter_cons, filter_nil.
  destruct (decide (t = x)) as [->|Hne].
  - rewrite decide_True by done. simpl. lia.
  - rewrite decide_False by congruence. simpl. lia.
Qed.

Lemma count_of_app t l1 l2 : count_of t (l1 ++ l2) = (count_of t l1 + count_of t l2)%Z.
Proof. unfold count_of. rewrite filter_app, length_app. lia. Qed.

Lemma count_of_not_elem t l : t ∉ l → count_of t l = 0%Z.
Proof.
  intros Ht. unfold count_of.
  induction l as [|x l IH]; [done|].
  apply not_elem_of_cons in Ht as [Hne Ht].
  rewrite filter_cons, decide_False by congruence. by apply IH.
Qed.

Lemma count_of_elem t l : t ∈ l → (0 < count_of t l)%Z.
Proof.
  intros Ht. unfold count_of.
  induction l as [|x l IH]; [by apply elem_of_nil in Ht|].
  rewrite filter_cons. destruct (decide (x = t)) as [->|Hne]; [simpl; lia|].
  apply elem_of_cons in Ht as [->|Ht]; [done|]. by apply IH.
Qed.

Lemma counter_incr_tabulate (g : string → Z) x K :
  NoDup K → (x ∉ K → g x = 0%Z) →
  counter_incr x (map (λ t, (t, g t)) K) =
    map (λ t, (t, (g t + if decide (t = x) then 1 else 0)%Z))
        (if decide (x ∈ K) then K else K ++ [x]).
Proof.
  induction K as [|k K IH]; intros Hnd Hx; simpl.
  - rewrite decide_True by done. rewrite Hx by apply not_elem_of_nil. done.
  - apply NoDup_cons in Hnd as [Hk Hnd].
    destruct (String.eqb_spec k x) as [->|Hne].
    + rewrite decide_True by left. simpl. rewrite decide_True by done.
      f_equal. apply map_ext_in. intros t Ht%list_elem_of_In.
      rewrite decide_False; [by rewrite Z.add_0_r|]. by intros ->.
    + rewrite IH; [|done|].
      2:{ intros Hx'. apply Hx. by intros [->|?]%elem_of_cons. }
      destruct (decide (x ∈ K)) as [Hin|Hin].
      * rewrite decide_True by (by right). simpl.
        rewrite decide_False by done. by rewrite Z.add_0_r.
      * rewrite decide_False by (by intros [->|?]%elem_of_cons). simpl.
        rewrite decide_False by done. by rewrite Z.add_0_r.
Qed.

Lemma Counter_snoc l x : Counter (l ++ [x]) = counter_incr x (Counter l).
Proof. unfold Counter. by rewrite fold_left_app. Qed.

(** The counter lists the distinct terms in order of first appearance, each
    with its number of occurrences. *)
Lemma Counter_tabulate l :
  Counter l = map (λ t, (t, count_of t l)) (first_seen l).
Proof.
  induction l as [|x l IH] using rev_ind; [done|].
  rewrite Counter_snoc, IH, first_seen_snoc.
  rewrite counter_incr_tabulate.
  - apply map_ext. intros t. by rewrite count_of_snoc.
  - apply first_seen_NoDup.
  - intros Hx. apply count_of_not_elem. by rewrite <- elem_of_first_seen.
Qed.

Lemma Counter_keys l : (Counter l).*1 = first_seen l.
Proof.
  rewrite Counter_tabulate. change (map ?f ?l) with (f <$> l).
  rewrite <- list_fmap_compose. apply list_fmap_id.
Qed.

Lemma elem_of_Counter l t n :
  (t, n) ∈ Counter l ↔ t ∈ l ∧ n = count_of t l.
Proof.
  rewrite Counter_tabulate. change (map ?f ?l) with (f <$> l).
  rewrite list_elem_of_fmap. setoid_rewrite elem_of_first_seen. split.
  - intros (t' & [= -> ->] & Ht). done.
  - intros [Ht ->]. eauto.
Qed.

(** ** The ranking sort *)

#[local] Instance count_ge_trans : Transitive count_ge.
Proof. unfold count_ge. intros a b c. lia. Qed.

Lemma insert_desc_perm x l : insert_desc x l ≡ₚ x :: l.
Proof.
  induction l as [|y l IH]; simpl; [done|].
  destruct (x.2 <? y.2)%Z; [|done].
  rewrite IH. apply Permutation_swap.
Qed.

Lemma sorted_by_count_desc_perm l : sorted_by_count_desc l ≡ₚ l.
Proof.
  induction l as [|x l IH]; simpl; [done|].
  by rewrite insert_desc_perm, IH.
Qed.

Lemma insert_desc_sorted x l :
  StronglySorted count_ge l → StronglySorted count_ge (insert_desc x l).
Proof.
  induction l as [|y l IH]; intros Hs; simpl.
  - repeat constructor.
  - apply StronglySorted_inv in Hs as [Hs Hy].
    destruct (Z.ltb_spec x.2 y.2) as [Hlt|Hge].
    + constructor; [by apply IH|].
      rewrite insert_desc_perm. constructor; [|done]. unfold count_ge. lia.
    + constructor; [by constructor|].
      constructor; [done|].
      eapply Forall_impl; [exact Hy|]. unfold count_ge. intros z. simpl. lia.
Qed.

Lemma sorted_by_count_desc_sorted l : StronglySorted count_ge (sorted_by_count_desc l).
Proof.
  induction l as [|x l IH]; simpl; [constructor|]. by apply insert_desc_sorted.
Qed.

(** Where two entries of the list after an insertion come from. *)
Lemma insert_desc_order x l a b :
  [a; b] `sublist_of` insert_desc x l →
  [a; b] `sublist_of` l
  ∨ (a = x ∧ b ∈ l)
  ∨ (b = x ∧ a ∈ l ∧ (x.2 < a.2)%Z).
Proof.
  induction l as [|y l IH]; simpl; intros Hsub.
  - apply sublist_cons_r in Hsub as [Hsub|(l' & Heq & Hsub)].
    + by apply sublist_nil_r in Hsub.
    + apply sublist_nil_r in Hsub. by simplify_eq.
  - destruct (Z.ltb_spec x.2 y.2) as [Hlt|Hge].
    + apply sublist_cons_r in Hsub as [Hsub|(l' & Heq & Hsub)].
      * destruct (IH Hsub) as [H|[[-> H]|(-> & H & Hlt')]].
        -- left. by apply sublist_cons.
        -- right; left. split; [done|]. by right.
        -- right; right. repeat split; [by right|done].
      * simplify_eq.
        apply singleton_sublist_l in Hsub. rewrite insert_desc_perm in Hsub.
        apply elem_of_cons in Hsub as [->|Hb].
        -- right; right. repeat split; [by left|done].
        -- left. apply sublist_skip. by apply singleton_sublist_l.
    + apply sublist_cons_r in Hsub as [Hsub|(l' & Heq & Hsub)].
      * by left.
      * simplify_eq. right; left. split; [done|]. by apply singleton_sublist_l in Hsub.
Qed.

(** Stability: two entries of equal count keep their relative order. *)
Lemma sorted_by_count_desc_stable l a b :
  a.2 = b.2 →
  [a; b] `sublist_of` sorted_by_count_desc l → [a; b] `sublist_of` l.
Proof.
  intros Heq. induction l as [|x l IH]; simpl; intros Hsub; [done|].
  destruct (insert_desc_order _ _ _ _ Hsub) as [H|[[-> H]|(-> & H & Hlt)]].
  - apply sublist_cons. by apply IH.
  - apply sublist_skip. apply singleton_sublist_l.
    by rewrite sorted_by_count_desc_perm in H.
  - lia.
Qed.

Lemma insert_desc_scale k x l :
  (0 < k)%Z →
  insert_desc (scale_count k x) (map (scale_count k) l) =
    map (scale_count k) (insert_desc x l).
Proof.
  intros Hk. induction l as [|y l IH]; simpl; [done|].
  destruct (Z.ltb_spec x.2 y.2), (Z.ltb_spec (k * x.2) (k * y.2)); simpl.
  - by rewrite IH.
  - nia.
  - nia.
  - done.
Qed.

Lemma sorted_by_count_desc_scale k l :
  (0 < k)%Z →
  sorted_by_count_desc (map (scale_count k) l) =
    map (scale_count k) (sorted_by_count_desc l).
Proof.
  intros Hk. induction l as [|x l IH]; simpl; [done|].
  by rewrite IH, insert_desc_scale.
Qed.

(** ** Slicing *)

Lemma slice_to_take {A} (l : list A) n : ∃ m, slice_to l n = take m l.
Proof. unfold slice_to. destruct (n <? 0)%Z; eauto. Qed.

Lemma slice_to_length {A} (l : list A) n :
  (0 ≤ n)%Z → (Z.of_nat (length (slice_to l n)) ≤ n)%Z.
Proof.
  intros Hn. unfold slice_to.
  destruct (Z.ltb_spec n 0); [lia|]. rewrite length_take. lia.
Qed.

Lemma slice_to_all {A} (l : list A) n :
  (Z.of_nat (length l) ≤ n)%Z → slice_to l n = l.
Proof.
  intros Hn. unfold slice_to.
  destruct (Z.ltb_spec n 0); [lia|]. apply take_ge. lia.
Qed.

Lemma slice_to_map {A B} (f : A → B) (l : list A) n :
  slice_to (map f l) n = map f (slice_to l n).
Proof.
  unfold slice_to. rewrite length_map.
  change (map f) with (fmap (M := list) f).
  destruct (n <? 0)%Z; by rewrite fmap_take.
Qed.

Lemma slice_to_sublist {A} (l : list A) n : slice_to l n `sublist_of` l.
Proof. destruct (slice_to_take l n) as [m ->]. apply sublist_take. Qed.

(** ** Order of first appearance *)

Lemma first_index_elem t l : t ∈ l → ∃ i, first_index t l = Some i ∧ i < length l.
Proof.
  intros Ht. unfold first_index.
  destruct (list_find_elem_of (λ x, x = t) l t Ht eq_refl) as [[i y] Hf].
  rewrite Hf. exists i. split; [done|].
  apply list_find_Some in Hf as (Hi & _). by apply lookup_lt_Some in Hi.
Qed.

Lemma first_index_app_l t l1 l2 i :
  first_index t l1 = Some i → first_index t (l1 ++ l2) = Some i.
Proof.
  unfold first_index. destruct (list_find _ l1) as [[j y]|] eqn:Hf; [|done].
  intros [= ->]. erewrite list_find_app_l; [|exact Hf]. done.
Qed.

Lemma first_index_snoc_new t l : t ∉ l → first_index t (l ++ [t]) = Some (length l).
Proof.
  intros Ht. unfold first_index.
  assert (list_find (λ x, x = t) (l ++ [t]) = Some (length l, t)) as ->; [|done].
  apply list_find_Some. split; [|split; [done|]].
  - rewrite lookup_app_r by done. by rewrite Nat.sub_diag.
  - intros j y Hj Hlt ->. apply Ht.
    rewrite lookup_app_l in Hj by done. by eapply list_elem_of_lookup_2.
Qed.

Lemma first_seen_order l t1 t2 :
  [t1; t2] `sublist_of` first_seen l →
  ∃ i j, first_index t1 l = Some i ∧ first_index t2 l = Some j ∧ i < j.
Proof.
  induction l as [|x l IH] using rev_ind; intros Hsub.
  - by apply sublist_nil_r in Hsub.
  - rewrite first_seen_snoc in Hsub. case_decide as Hx.
    + destruct (IH Hsub) as (i & j & Hi & Hj & Hlt).
      exists i, j. eauto using first_index_app_l.
    + apply sublist_app_r in Hsub as (k1 & k2 & Hk & Hk1 & Hk2).
      apply sublist_cons_r in Hk2 as [Hk2|(k2' & -> & Hk2)];
        apply sublist_nil_r in Hk2 as ->.
      * rewrite app_nil_r in Hk. subst k1.
        destruct (IH Hk1) as (i & j & Hi & Hj & Hlt).
        exists i, j. eauto using first_index_app_l.
      * destruct k1 as [|a [|b k1]]; simplify_eq/=; [|by destruct k1].
        apply singleton_sublist_l in Hk1. rewrite elem_of_first_seen in Hk1.
        destruct (first_index_elem _ _ Hk1) as (i & Hi & Hlt).
        exists i, (length l). split; [by apply first_index_app_l|].
        split; [|done]. apply first_index_snoc_new.
        by rewrite <- elem_of_first_seen.
Qed.

(** ** Small list facts *)

Lemma filter_Forall_id {A} (P : A → Prop) `{!∀ x, Decision (P x)} (l : list A) :
  Forall P l → filter P l = l.
Proof.
  induction 1 as [|x l Hx _ IH]; [done|].
  by rewrite filter_cons, decide_True, IH.
Qed.

Lemma filter_map_key {A B} (p : A → bool) (f : A * B → A * B) (l : list (A * B)) :
  (∀ x, (f x).1 = x.1) →
  filter (λ x, p x.1 = true) (map f l) = map f (filter (λ x, p x.1 = true) l).
Proof.
  intros Hf. induction l as [|x l IH]; [done|]. simpl.
  rewrite !filter_cons, Hf, IH. by case_decide.
Qed.

Lemma elem_of_concat {A} (x : A) (ls : list (list A)) :
  x ∈ concat ls ↔ ∃ l, l ∈ ls ∧ x ∈ l.
Proof.
  rewrite list_elem_of_In, in_concat.
  by setoid_rewrite list_elem_of_In.
Qed.

Lemma StronglySorted_take {A} (R : relation A) (l : list A) n :
  StronglySorted R l → StronglySorted R (take n l).
Proof.
  intros Hs. rewrite <- (take_drop n l) in Hs. by apply StronglySorted_app_1_l in Hs.
Qed.

Lemma first_seen_app_subset l1 l2 :
  (∀ t, t ∈ l2 → t ∈ l1) → first_seen (l1 ++ l2) = first_seen l1.
Proof.
  induction l2 as [|x l2 IH] using rev_ind; intros Hsub.
  - by rewrite app_nil_r.
  - rewrite app_assoc, first_seen_snoc.
    rewrite IH by (intros t Ht; apply Hsub, elem_of_app; by left).
    rewrite decide_True; [done|].
    apply elem_of_first_seen, Hsub, elem_of_app. right. by left.
Qed.

Lemma elem_of_concat_replicate {A} (x : A) n (l : list A) :
  x ∈ concat (replicate n l) → x ∈ l.
Proof.
  induction n as [|n IH]; simpl; [by intros ?%elem_of_nil|].
  intros [?|?]%elem_of_app; auto.
Qed.

Lemma count_of_concat_replicate t n l :
  count_of t (concat (replicate n l)) = (Z.of_nat n * count_of t l)%Z.
Proof.
  induction n as [|n IH]; [done|].
  rewrite replicate_S. simpl concat. rewrite count_of_app, IH. lia.
Qed.

(** Counting [k] copies of a term list multiplies every count by [k] and
    keeps the order of the entries. *)
Lemma Counter_concat_replicate k l :
  (0 < k)%nat →
  Counter (concat (replicate k l)) = map (scale_count (Z.of_nat k)) (Counter l).
Proof.
  intros Hk. destruct k as [|k]; [lia|].
  rewrite !Counter_tabulate, map_map. rewrite replicate_S. simpl concat.
  rewrite first_seen_app_subset by (intros t; apply elem_of_concat_replicate).
  apply map_ext. intros t. unfold scale_count. simpl. f_equal.
  rewrite <- (count_of_concat_replicate t (S k) l). by rewrite replicate_S.
Qed.

Section TermFrequency.

Variable nlp : string → Doc.

Lemma process_single_doc_spec self document :
  _process_single_doc nlp self document =
    map (λ chunk, Str.lower (chunk_text chunk))
        (filter (λ chunk, any_legal_term self (chunk_text chunk) = true)
                (noun_chunks (nlp document))).
Proof.
  unfold _process_single_doc.
  apply (fold_left_select (λ chunk, any_legal_term self (chunk_text chunk))
           (λ chunk, Str.lower (chunk_text chunk)) _ []).
Qed.

Lemma process_single_doc_legal self document t :
  t ∈ _process_single_doc nlp self document → any_legal_term self t = true.
Proof.
  rewrite process_single_doc_spec. change (map ?f ?l) with (f <$> l).
  intros (chunk & -> & Hc)%list_elem_of_fmap.
  apply list_elem_of_filter in Hc as [Hc _]. by rewrite any_legal_term_lower.
Qed.

Lemma all_terms_legal self documents t :
  t ∈ all_terms nlp self documents → any_legal_term self t = true.
Proof.
  unfold all_terms. intros (l & Hl & Ht)%elem_of_concat.
  change (map ?f ?l) with (f <$> l) in Hl.
  apply list_elem_of_fmap in Hl as (d & -> & _).
  by eapply process_single_doc_legal.
Qed.

(** The aggregation-stage filter keeps every entry of the counter. *)
Lemma legal_term_freq_all self documents :
  legal_term_freq nlp self documents = Counter (all_terms nlp self documents).
Proof.
  unfold legal_term_freq. apply filter_Forall_id, Forall_forall.
  intros [t n] Hin. apply elem_of_Counter in Hin as [Ht _]. simpl.
  by eapply all_terms_legal.
Qed.

Lemma rank_terms_spec self documents top_n :
  rank_terms self (map (_process_single_doc nlp self) documents) top_n =
    slice_to (sorted_by_count_desc (legal_term_freq nlp self documents)) top_n.
Proof. unfold rank_terms. by rewrite merge_terms. Qed.

Lemma analyze_term_frequency_spec self completion documents top_n :
  complete completion documents →
  analyze_term_frequency nlp self completion documents top_n =
    Some (slice_to (sorted_by_count_desc (legal_term_freq nlp self documents)) top_n).
Proof.
  intros Hc. unfold analyze_term_frequency.
  by rewrite (executor_map_complete _ _ _ Hc), rank_terms_spec.
Qed.

(** C3, as amended. Once every worker has finished,
    [analyze_term_frequency] returns a list that is sorted by non-increasing
    count; for a non-negative [top_n] its length is at most [top_n]; an empty
    [documents] yields the empty list; and a [top_n] that is at least the
    number of distinct filtered terms returns all the entries. *)
Theorem analyze_term_frequency_ranked (self : LegalDocumentProcessor)
    (completion : list nat) (documents : list string) (top_n : Z) :
  complete completion documents →
  ∃ r, analyze_term_frequency nlp self completion documents top_n = Some r
     ∧ StronglySorted count_ge r
     ∧ ((0 ≤ top_n)%Z → (Z.of_nat (length r) ≤ top_n)%Z)
     ∧ (documents = [] → r = [])
     ∧ ((Z.of_nat (length (legal_term_freq nlp self documents)) ≤ top_n)%Z →
          r ≡ₚ legal_term_freq nlp self documents).
Proof.
  intros Hc. eexists. split; [by apply analyze_term_frequency_spec|].
  split; [|split; [|split]].
  - destruct (slice_to_take
                (sorted_by_count_desc (legal_term_freq nlp self documents)) top_n)
      as [m ->].
    apply StronglySorted_take, sorted_by_count_desc_sorted.
  - apply slice_to_length.
  - intros ->.
    change (legal_term_freq nlp self []) with (@nil (string * Z)).
    destruct (slice_to_take (sorted_by_count_desc (@nil (string * Z))) top_n) as [m ->].
    by destruct m.
  - intros Hn. rewrite slice_to_all.
    + apply sorted_by_count_desc_perm.
    + by rewrite sorted_by_count_desc_perm.
Qed.

(** C4. Every (term, count) pair [analyze_term_frequency] returns has a
    term that contains, once lowercased, an entry of the vocabulary, and a
    strictly positive count. *)
Theorem analyze_term_frequency_entries (self : LegalDocumentProcessor)
    (completion : list nat) (documents : list string) (top_n : Z) :
  complete completion documents →
  ∃ r, analyze_term_frequency nlp self completion documents top_n = Some r
     ∧ ∀ term count, (term, count) ∈ r →
         (∃ legal_term, legal_term ∈ legal_terms self
                      ∧ Str.contains legal_term (Str.lower term) = true)
         ∧ (0 < count)%Z.
Proof.
  intros Hc. eexists. split; [by apply analyze_term_frequency_spec|].
  intros term count Hin.
  eapply elem_of_sublist in Hin; [|apply slice_to_sublist].
  rewrite sorted_by_count_desc_perm in Hin.
  unfold legal_term_freq in Hin.
  apply list_elem_of_filter in Hin as [Hlegal Hin]. simpl in Hlegal.
  apply elem_of_Counter in Hin as [Hterm ->].
  split; [by apply any_legal_term_true|by apply count_of_elem].
Qed.

(** C5. For a document [d] and [k > 0], the run on [k] copies of [d] returns
    the entries of the run on [[d]] with the same [top_n], in the same order,
    each count multiplied by [k]. *)
Theorem analyze_term_frequency_copies (self : LegalDocumentProcessor)
    (completion1 completionk : list nat) (d : string) (k : nat) (top_n : Z) :
  (0 < k)%nat →
  complete completion1 [d] →
  complete completionk (replicate k d) →
  ∃ r1, analyze_term_frequency nlp self completion1 [d] top_n = Some r1
      ∧ analyze_term_frequency nlp self completionk (replicate k d) top_n =
          Some (map (scale_count (Z.of_nat k)) r1).
Proof.
  intros Hk Hc1 Hck. eexists. split; [by apply analyze_term_frequency_spec|].
  rewrite (analyze_term_frequency_spec _ _ _ _ Hck). f_equal.
  rewrite <- slice_to_map, <- sorted_by_count_desc_scale by lia. do 2 f_equal.
  unfold legal_term_freq.
  rewrite <- (filter_map_key (any_legal_term self)) by done.
  f_equal. unfold all_terms. simpl. rewrite app_nil_r.
  change (map ?f (replicate k d)) with (f <$> replicate k d).
  rewrite fmap_replicate. by apply Counter_concat_replicate.
Qed.

(** C8. Removing the aggregation-stage vocabulary filter changes nothing:
    for every corpus, completion order and [top_n] the two versions return
    the same result. *)
Theorem analyze_term_frequency_filter_noop (self : LegalDocumentProcessor)
    (completion : list nat) (documents : list string) (top_n : Z) :
  analyze_term_frequency nlp self completion documents top_n =
    analyze_term_frequency_unfiltered nlp self completion documents top_n.
Proof.
  unfold analyze_term_frequency, analyze_term_frequency_unfiltered.
  destruct (executor_map _ _ _) as [processed|] eqn:He; [|done].
  apply executor_map_Some in He as ->. f_equal.
  rewrite rank_terms_spec, legal_term_freq_all.
  unfold rank_terms_unfiltered. by rewrite merge_terms.
Qed.

(** C10. The result does not depend on the order in which the workers
    finish, and entries of equal count are ordered by the first appearance of
    their terms in the merged, document-order term list. *)
Theorem analyze_term_frequency_deterministic (self : LegalDocumentProcessor)
    (completion1 completion2 : list nat) (documents : list string) (top_n : Z) :
  complete completion1 documents →
  complete completion2 documents →
  ∃ r, analyze_term_frequency nlp self completion1 documents top_n = Some r
     ∧ analyze_term_frequency nlp self completion2 documents top_n = Some r
     ∧ ∀ i j t1 t2 c,
         r !! i = Some (t1, c) → r !! j = Some (t2, c) → (i < j)%nat →
         ∃ a b, first_index t1 (all_terms nlp self documents) = Some a
              ∧ first_index t2 (all_terms nlp self documents) = Some b
              ∧ (a < b)%nat.
Proof.
  intros Hc1 Hc2. eexists. split; [by apply analyze_term_frequency_spec|].
  split; [by apply analyze_term_frequency_spec|].
  intros i j t1 t2 c Hi Hj Hlt.
  apply first_seen_order. rewrite <- Counter_keys.
  change [t1; t2] with (fst <$> [(t1, c); (t2, c)]).
  apply fmap_sublist.
  transitivity (legal_term_freq nlp self documents); [|apply sublist_filter].
  apply sorted_by_count_desc_stable; [done|].
  set (r := slice_to _ _) in *.
  transitivity r; [|apply slice_to_sublist].
  rewrite <- (take_drop_middle r j (t2, c) Hj).
  apply (sublist_app [(t1, c)] _ [(t2, c)]).
  - apply singleton_sublist_l, list_elem_of_lookup. exists i.
    by rewrite lookup_take_lt.
  - apply sublist_skip, sublist_nil_l.
Qed.

End TermFrequency.

(** ** Summary and entities *)

Lemma generate_summary_spec self doc :
  _generate_summary self doc = Str.join " " (take 3 (dense_sentences doc)).
Proof.
  unfold _generate_summary, dense_sentences.
  rewrite (fold_left_select (λ sent, (3 <? length (sent_noun_chunks sent))%nat)
             sent_text (sents doc) []).
  simpl. do 3 f_equal. apply list_filter_iff. intros sent.
  by rewrite Nat.ltb_lt.
Qed.

Lemma add_entity_spec (entities : gmap string (list string)) ent :
  add_entity entities ent =
    Some (<[ent_label_ ent :=
              default [] (entities !! ent_label_ ent) ++ [ent_text ent]]> entities).
Proof.
  unfold add_entity, dict_append.
  destruct (entities !! ent_label_ ent) as [l|] eqn:Hl.
  - by rewrite Hl.
  - rewrite lookup_insert_eq. simpl. by rewrite insert_insert_eq.
Qed.

Lemma extract_entities_from (es : list Entity) (entities : gmap string (list string)) :
  ∃ m, fold_left
         (λ acc ent, match acc with
                     | Some entities => add_entity entities ent
                     | None => None
                     end) es (Some entities) = Some m
     ∧ ∀ label, m !! label =
         match entities_of label es with
         | [] => entities !! label
         | l => Some (default [] (entities !! label) ++ l)
         end.
Proof.
  revert entities. induction es as [|ent es IH]; intros entities; simpl.
  - by exists entities.
  - rewrite add_entity_spec.
    destruct (IH (<[ent_label_ ent :=
                      default [] (entities !! ent_label_ ent) ++ [ent_text ent]]>
                    entities)) as (m & -> & Hm).
    exists m. split; [done|]. intros label. rewrite Hm. unfold entities_of.
    rewrite filter_cons. destruct (decide (ent_label_ ent = label)) as [<-|Hne].
    + rewrite lookup_insert_eq. simpl.
      destruct (map ent_text _); [done|]. by rewrite <- app_assoc.
    + by rewrite lookup_insert_ne.
Qed.

Lemma extract_entities_spec self doc :
  ∃ m, _extract_entities self doc = Some m
     ∧ ∀ label, m !! label =
         match entities_of label (ents doc) with
         | [] => None
         | l => Some l
         end.
Proof.
  destruct (extract_entities_from (ents doc) ∅) as (m & Hm & Hl).
  exists m. split; [done|]. intros label. rewrite Hl, lookup_empty. done.
Qed.

Section Insights.

Variable nlp : string → Doc.

Lemma get_document_insights_spec self document :
  ∃ clauses entities_,
    extract_clauses nlp self document = Some clauses
    ∧ _extract_entities self (nlp document) = Some entities_
    ∧ get_document_insights nlp self document =
        Some {| summary := _generate_summary self (nlp document);
                key_clauses := clauses;
                document_stats :=
                  {| total_words := length (tokens (nlp document));
                     sentences := length (sents (nlp document));
                     entities := entities_ |} |}.
Proof.
  destruct (extract_clauses_spec nlp self document) as (clauses & Hc & _).
  destruct (extract_entities_spec self (nlp document)) as (entities_ & He & _).
  exists clauses, entities_. repeat split; try done.
  unfold get_document_insights. by rewrite Hc, He.
Qed.

(** C6. The summary of [get_document_insights] is the texts of the first
    three sentences that have more than three noun chunks, in document order,
    joined by one space; with fewer than three such sentences all of them are
    used, and with none the summary is the empty string. *)
Theorem get_document_insights_summary (self : LegalDocumentProcessor) (document : string) :
  ∃ insights, get_document_insights nlp self document = Some insights
    ∧ summary insights = Str.join " " (take 3 (dense_sentences (nlp document)))
    ∧ ((length (dense_sentences (nlp document)) < 3)%nat →
         summary insights = Str.join " " (dense_sentences (nlp document)))
    ∧ (dense_sentences (nlp document) = [] → summary insights = "").
Proof.
  destruct (get_document_insights_spec self document) as (c & e & _ & _ & ->).
  eexists. split; [done|]. simpl. rewrite generate_summary_spec.
  split; [done|]. split.
  - intros Hlt. rewrite take_ge; [done|lia].
  - by intros ->.
Qed.

(** C7. In [document_stats], [sentences] is the number of sentence spans of
    the annotated document, [total_words] its number of tokens, and
    [entities] maps each label that occurs to the texts of the entities of
    that label, in document order (and holds no other label). *)
Theorem get_document_insights_stats (self : LegalDocumentProcessor) (document : string) :
  ∃ insights, get_document_insights nlp self document = Some insights
    ∧ sentences (document_stats insights) = length (sents (nlp document))
    ∧ total_words (document_stats insights) = length (tokens (nlp document))
    ∧ ∀ label, entities (document_stats insights) !! label =
        match entities_of label (ents (nlp document)) with
        | [] => None
        | l => Some l
        end.
Proof.
  destruct (get_document_insights_spec self document) as (c & e & _ & He & ->).
  eexists. split; [done|]. simpl. repeat split.
  destruct (extract_entities_spec self (nlp document)) as (e' & He' & Hl).
  rewrite He in He'. by injection He' as ->.
Qed.

(** ** The object is never mutated *)

Lemma preserves_ret {A} (a : A) : preserves (ret a).
Proof. done. Qed.

Lemma preserves_lift {A} (o : option A) : preserves (lift o).
Proof. done. Qed.

Lemma preserves_snapshot : preserves snapshot.
Proof. done. Qed.

Lemma preserves_bind {A B} (m : Method A) (f : A → Method B) :
  preserves m → (∀ a, preserves (f a)) → preserves (bind m f).
Proof.
  intros Hm Hf σ. unfold bind. specialize (Hm σ).
  destruct (m σ) as [[a|] σ']; simpl in *; subst σ'; [apply Hf|done].
Qed.

Lemma preserves_for_each {A B} (l : list A) (acc : B) (body : B → A → Method B) :
  (∀ acc x, preserves (body acc x)) → preserves (for_each l acc body).
Proof.
  intros Hb. revert acc. induction l as [|x l IH]; intros acc; simpl.
  - apply preserves_ret.
  - apply preserves_bind; [apply Hb|apply IH].
Qed.

Lemma preserves_get_legal_terms : preserves get_legal_terms.
Proof. intros σ. unfold get_legal_terms. by destruct (σ !! "legal_terms") as [[]|]. Qed.

Lemma preserves_any_legal_term_m s : preserves (any_legal_term_m s).
Proof.
  apply preserves_bind; [apply preserves_get_legal_terms|].
  intros terms. apply preserves_ret.
Qed.

Lemma preserves_extract_clauses_m document : preserves (extract_clauses_m nlp document).
Proof. apply preserves_lift. Qed.

Lemma preserves_process_single_doc_m document :
  preserves (_process_single_doc_m nlp document).
Proof.
  apply preserves_for_each. intros terms chunk.
  apply preserves_bind; [apply preserves_any_legal_term_m|].
  intros legal. apply preserves_ret.
Qed.

Lemma preserves_analyze_term_frequency_m completion documents top_n :
  preserves (analyze_term_frequency_m nlp completion documents top_n).
Proof.
  apply preserves_bind; [apply preserves_snapshot|]. intros copy.
  apply preserves_bind; [apply preserves_lift|]. intros results.
  apply preserves_bind; [apply preserves_lift|]. intros processed_docs.
  apply preserves_bind; [|intros kept; apply preserves_ret].
  apply preserves_for_each. intros kept item.
  apply preserves_bind; [apply preserves_any_legal_term_m|].
  intros legal. apply preserves_ret.
Qed.

Lemma preserves_get_document_insights_m document :
  preserves (get_document_insights_m nlp document).
Proof.
  apply preserves_bind; [apply preserves_ret|]. intros summary_.
  apply preserves_bind; [apply preserves_extract_clauses_m|]. intros clauses.
  apply preserves_bind; [apply preserves_lift|]. intros entities_.
  apply preserves_ret.
Qed.

Lemma step_preserves σ c : (step nlp σ c).2 = σ.
Proof.
  destruct c as [document|completion documents top_n|document]; simpl.
  - pose proof (preserves_extract_clauses_m document σ) as H.
    by destruct (extract_clauses_m nlp document σ).
  - pose proof (preserves_analyze_term_frequency_m completion documents top_n σ) as H.
    by destruct (analyze_term_frequency_m nlp completion documents top_n σ).
  - pose proof (preserves_get_document_insights_m document σ) as H.
    by destruct (get_document_insights_m nlp document σ).
Qed.

Lemma run_preserves σ calls : (run nlp σ calls).2 = σ.
Proof.
  revert σ. induction calls as [|c calls IH]; intros σ; simpl; [done|].
  pose proof (step_preserves σ c) as Hs. destruct (step nlp σ c) as [r σ'].
  simpl in Hs. subst σ'.
  specialize (IH σ). by destruct (run nlp σ calls).
Qed.

Lemma run_responses σ calls :
  (run nlp σ calls).1 = map (λ c, (step nlp σ c).1) calls.
Proof.
  revert σ. induction calls as [|c calls IH]; intros σ; simpl; [done|].
  pose proof (step_preserves σ c) as Hs. destruct (step nlp σ c) as [r σ'] eqn:Hc.
  simpl in Hs. subst σ'.
  specialize (IH σ). destruct (run nlp σ calls). simpl in *. by rewrite IH.
Qed.

(** The method bodies compute what the functions of [self] compute. *)

Lemma extract_clauses_m_spec self document σ :
  extract_clauses_m nlp document σ = (extract_clauses nlp self document, σ).
Proof. done. Qed.

Lemma get_legal_terms_object_of self :
  get_legal_terms (object_of self) = (Some (legal_terms self), object_of self).
Proof. done. Qed.

Lemma any_legal_term_m_object_of self s :
  any_legal_term_m s (object_of self) = (Some (any_legal_term self s), object_of self).
Proof. done. Qed.

Lemma for_each_select_object_of {A B} self (key : A → string) (g : A → B) l acc :
  for_each l acc
    (λ kept x, bind (any_legal_term_m (key x)) (λ legal,
               ret (if legal then kept ++ [g x] else kept))) (object_of self) =
  (Some (fold_left (λ kept x, if any_legal_term self (key x)
                              then kept ++ [g x] else kept) l acc),
   object_of self).
Proof.
  revert acc. induction l as [|x l IH]; intros acc; [done|].
  simpl for_each. unfold bind at 1. unfold bind at 1.
  rewrite any_legal_term_m_object_of. simpl. apply IH.
Qed.

Lemma process_single_doc_m_spec self document :
  _process_single_doc_m nlp document (object_of self) =
    (Some (_process_single_doc nlp self document), object_of self).
Proof. apply (for_each_select_object_of self chunk_text (λ c, Str.lower (chunk_text c))). Qed.

Lemma mapM_compose_Some {A B} (f : A → B) (l : list A) :
  mapM (λ x, Some (f x)) l = Some (map f l).
Proof. induction l as [|x l IH]; [done|]. simpl. by rewrite IH. Qed.

Lemma run_workers_fmap {B C} (h : B → C) (f : string → B) documents completion :
  run_workers (λ d, h (f d)) documents completion =
    h <$> run_workers f documents completion.
Proof.
  apply map_eq. intros i. rewrite lookup_fmap, !run_workers_lookup.
  case_decide; [|done]. by destruct (documents !! i).
Qed.

Lemma executor_map_fmap {B C} (h : B → C) (f : string → B) documents completion :
  executor_map completion (λ d, h (f d)) documents =
    map h <$> executor_map completion f documents.
Proof.
  unfold executor_map. rewrite run_workers_fmap.
  induction (seq 0 (length documents)) as [|i l IH]; [done|].
  simpl. rewrite lookup_fmap, IH.
  destruct (run_workers f documents completion !! i); [|done]. simpl.
  by destruct (mapM (λ i0, run_workers f documents completion !! i0) l).
Qed.

Lemma analyze_term_frequency_m_spec self completion documents top_n :
  analyze_term_frequency_m nlp completion documents top_n (object_of self) =
    (analyze_term_frequency nlp self completion documents top_n, object_of self).
Proof.
  unfold analyze_term_frequency_m, analyze_term_frequency.
  unfold bind at 1. simpl.
  rewrite (executor_map_ext completion
             (λ d, (_process_single_doc_m nlp d (object_of self)).1)
             (λ d, Some (_process_single_doc nlp self d)) documents)
    by (intros d; by rewrite process_single_doc_m_spec).
  rewrite (executor_map_fmap Some).
  destruct (executor_map completion (_process_single_doc nlp self) documents)
    as [processed|]; [|done].
  unfold bind at 1. simpl. unfold bind at 1. simpl.
  change (map Some processed) with (Some <$> processed).
  rewrite (mapM_fmap_Some id Some) by done. simpl.
  unfold bind at 1.
  rewrite (for_each_select_object_of self fst id). simpl.
  unfold rank_terms. do 3 f_equal.
  rewrite (fold_left_select (λ item : string * Z, any_legal_term self item.1) id).
  simpl. by rewrite map_id.
Qed.

Lemma get_document_insights_m_spec self document :
  get_document_insights_m nlp document (object_of self) =
    (get_document_insights nlp self document, object_of self).
Proof.
  unfold get_document_insights_m, get_document_insights.
  unfold bind at 1. simpl. unfold bind at 1.
  rewrite (extract_clauses_m_spec self). 
  destruct (extract_clauses nlp self document) as [clauses|]; [|done].
  unfold bind at 1. unfold _extract_entities_m, lift, _extract_entities.
  by destruct (fold_left _ (ents (nlp document)) (Some ∅)).
Qed.

Lemma new_processor_object_of : new_processor = object_of __init__.
Proof. done. Qed.

(** C9, as amended. The vocabulary is set at construction and no call ever
    changes the object: after any sequence of calls on a fresh processor its
    attributes are the two that [__init__] set, [legal_terms] with the eight
    vocabulary entries and [tfidf].  The pattern table is no attribute: it is
    the literal that [extract_clauses] builds at every call, so every
    [extract_clauses] call among them tests the sentences of its document
    against the same three patterns. *)
Theorem vocabulary_and_patterns_fixed (calls : list call) :
  (∀ σ : object, (run nlp σ calls).2 = σ)
  ∧ (run nlp new_processor calls).2 = new_processor
  ∧ dom new_processor = ({["legal_terms"; "tfidf"]} : gset string)
  ∧ new_processor !! "legal_terms" =
      Some (VTerms (list_to_set
              [ "liability"; "indemnification"; "termination"; "warranty";
                "confidentiality"; "arbitration"; "jurisdiction";
                "force majeure" ]))
  ∧ patterns.*1 = ["termination"; "liability"; "confidentiality"]
  ∧ ∀ i document, calls !! i = Some (ExtractClauses document) →
      ∃ m, (run nlp new_processor calls).1 !! i = Some (Clauses (Some m))
         ∧ dom m = list_to_set patterns.*1
         ∧ ∀ clause_type pattern, (clause_type, pattern) ∈ patterns →
             m !! clause_type =
               Some (filter (λ s, Re.search pattern s = true)
                            (stripped_sentences nlp document)).
Proof.
  split; [intros σ; apply run_preserves|].
  split; [apply run_preserves|]. split.
  { unfold new_processor, init, bind, setattr. simpl.
    rewrite !dom_insert_L. set_solver. }
  split; [done|]. split; [done|].
  intros i document Hi.
  destruct (extract_clauses_spec nlp __init__ document) as (m & Hm & Hd & Hp).
  exists m. split; [|split; [|done]].
  - rewrite run_responses. change (map ?f ?l) with (f <$> l).
    rewrite list_lookup_fmap, Hi. unfold step. cbn [fmap option_fmap option_map].
    rewrite (extract_clauses_m_spec __init__ document). by rewrite Hm.
  - rewrite Hd, patterns_keys. simpl. set_solver.
Qed.

End Insights.

(** * The properties on the sample documents *)

Example extract_clauses_contract :
  map_to_list <$> extract_clauses Sample.nlp __init__ Sample.contract =
    Some [ ("confidentiality",
            ["All confidential information shall be kept strictly confidential for a period of 5 years."]);
           ("liability",
            ["The Company shall not be liable for any indirect damages."]);
           ("termination",
            ["This Agreement may be terminated by either party upon 30 days written notice."]) ].
Proof. by vm_compute. Qed.

Example extract_clauses_overlap :
  map_to_list <$> extract_clauses Sample.nlp __init__ Sample.nda =
    Some [ ("confidentiality", [Sample.nda]);
           ("liability", [Sample.nda]);
           ("termination", [Sample.nda]) ].
Proof. by vm_compute. Qed.

Example analyze_term_frequency_policy :
  analyze_term_frequency Sample.nlp __init__ [0] [Sample.policy] 10 =
    Some [ ("liability", 2%Z); ("termination", 1%Z);
           ("the liability cap", 1%Z); ("the warranty period", 1%Z) ].
Proof. by vm_compute. Qed.

Example complete_021 : complete [2; 0; 1] (replicate 3 Sample.policy).
Proof.
  unfold complete. simpl.
  etransitivity; [apply Permutation_swap|]. apply Permutation_skip, Permutation_swap.
Defined.

Example complete_0 : complete [0] [Sample.policy].
Proof. unfold complete. simpl. reflexivity. Defined.

Example complete_10 : complete [1; 0] [Sample.policy; Sample.contract].
Proof. unfold complete. simpl. apply Permutation_swap. Defined.

Example complete_01 : complete [0; 1] [Sample.policy; Sample.contract].
Proof. unfold complete. simpl. reflexivity. Defined.

(** C3 fails for a negative [top_n]: with [top_n = -1] the slice drops the
    last of the four entries and returns three, more than [top_n]. *)
Lemma analyze_term_frequency_negative_top_n :
  complete [0] [Sample.policy]
  ∧ analyze_term_frequency Sample.nlp __init__ [0] [Sample.policy] (-1) =
      Some [ ("liability", 2%Z); ("termination", 1%Z); ("the liability cap", 1%Z) ]
  ∧ ¬ (∀ r, analyze_term_frequency Sample.nlp __init__ [0] [Sample.policy] (-1) = Some r →
            (Z.of_nat (length r) ≤ -1)%Z).
Proof.
  split; [exact complete_0|]. split; [by vm_compute|].
  intros H. specialize (H _ eq_refl). vm_compute in H. by apply H.
Qed.

(** C9 fails as stated: construction defines the vocabulary and the
    vectorizer and nothing else; no attribute of a fresh processor holds a
    pattern table. *)
Lemma patterns_not_set_at_construction :
  (init ∅).1 = Some tt
  ∧ dom (init ∅).2 = ({["legal_terms"; "tfidf"]} : gset string)
  ∧ ¬ ∃ name table, (init ∅).2 !! name = Some (VPatterns table).
Proof.
  split; [done|]. split.
  - unfold init, bind, setattr. simpl. rewrite !dom_insert_L. set_solver.
  - intros (name & table & H). unfold init, bind, setattr in H. simpl in H.
    destruct (decide ("tfidf" = name)) as [<-|Hn1].
    + by rewrite lookup_insert_eq in H.
    + rewrite lookup_insert_ne in H by done.
      destruct (decide ("legal_terms" = name)) as [<-|Hn2].
      * by rewrite lookup_insert_eq in H.
      * by rewrite lookup_insert_ne in H.
Qed.

Lemma analyze_term_frequency_ranked_witness :
  complete [1; 0] [Sample.policy; Sample.contract]
  ∧ ∃ r, analyze_term_frequency Sample.nlp __init__ [1; 0]
           [Sample.policy; Sample.contract] 2 = Some r
       ∧ StronglySorted count_ge r
       ∧ ((0 ≤ 2)%Z → (Z.of_nat (length r) ≤ 2)%Z)
       ∧ ([Sample.policy; Sample.contract] = [] → r = [])
       ∧ ((Z.of_nat (length (legal_term_freq Sample.nlp __init__
                               [Sample.policy; Sample.contract])) ≤ 2)%Z →
            r ≡ₚ legal_term_freq Sample.nlp __init__ [Sample.policy; Sample.contract]).
Proof.
  split; [exact complete_10|].
  apply (analyze_term_frequency_ranked Sample.nlp __init__ [1; 0]
           [Sample.policy; Sample.contract] 2).
  exact complete_10.
Defined.

Lemma analyze_term_frequency_entries_witness :
  complete [1; 0] [Sample.policy; Sample.contract]
  ∧ ∃ r, analyze_term_frequency Sample.nlp __init__ [1; 0]
           [Sample.policy; Sample.contract] 10 = Some r
       ∧ ∀ term count, (term, count) ∈ r →
           (∃ legal_term, legal_term ∈ legal_terms __init__
                        ∧ Str.contains legal_term (Str.lower term) = true)
           ∧ (0 < count)%Z.
Proof.
  split; [exact complete_10|].
  apply (analyze_term_frequency_entries Sample.nlp __init__ [1; 0]
           [Sample.policy; Sample.contract] 10).
  exact complete_10.
Defined.

Lemma analyze_term_frequency_copies_witness :
  (0 < 3)%nat
  ∧ complete [0] [Sample.policy]
  ∧ complete [2; 0; 1] (replicate 3 Sample.policy)
  ∧ ∃ r1, analyze_term_frequency Sample.nlp __init__ [0] [Sample.policy] 10 = Some r1
        ∧ analyze_term_frequency Sample.nlp __init__ [2; 0; 1]
            (replicate 3 Sample.policy) 10 =
            Some (map (scale_count (Z.of_nat 3)) r1).
Proof.
  split; [lia|]. split; [exact complete_0|]. split; [exact complete_021|].
  apply (analyze_term_frequency_copies Sample.nlp __init__ [0] [2; 0; 1]
           Sample.policy 3 10); [lia|exact complete_0|exact complete_021].
Defined.

Lemma analyze_term_frequency_deterministic_witness :
  complete [0; 1] [Sample.policy; Sample.contract]
  ∧ complete [1; 0] [Sample.policy; Sample.contract]
  ∧ ∃ r, analyze_term_frequency Sample.nlp __init__ [0; 1]
           [Sample.policy; Sample.contract] 10 = Some r
       ∧ analyze_term_frequency Sample.nlp __init__ [1; 0]
           [Sample.policy; Sample.contract] 10 = Some r
       ∧ ∀ i j t1 t2 c,
           r !! i = Some (t1, c) → r !! j = Some (t2, c) → (i < j)%nat →
           ∃ a b, first_index t1 (all_terms Sample.nlp __init__
                                    [Sample.policy; Sample.contract]) = Some a
                ∧ first_index t2 (all_terms Sample.nlp __init__
                                    [Sample.policy; Sample.contract]) = Some b
                ∧ (a < b)%nat.
Proof.
  split; [exact complete_01|]. split; [exact complete_10|].
  apply (analyze_term_frequency_deterministic Sample.nlp __init__ [0; 1] [1; 0]
           [Sample.policy; Sample.contract] 10); [exact complete_01|exact complete_10].
Defined.

(** * Further properties of the code *)

(** ** What the clause patterns match *)

Lemma existsb_ext_eq {A} (f g : A → bool) l :
  (∀ x, f x = g x) → existsb f l = existsb g l.
Proof. intros H. induction l as [|x l IH]; simpl; [done|]. by rewrite H, IH. Qed.

Lemma existsb_orb {A} (f g : A → bool) l :
  existsb (λ x, f x || g x) l = existsb f l || existsb g l.
Proof.
  induction l as [|x l IH]; simpl; [done|]. rewrite IH.
  destruct (f x), (g x), (existsb f l), (existsb g l); done.
Qed.

Lemma match_lit_app ic a b s :
  Re.match_lit ic (a ++ b)%string s =
    match Re.match_lit ic a s with
    | Some s' => Re.match_lit ic b s'
    | None => None
    end.
Proof.
  revert s. induction a as [|c a IH]; intros s; simpl; [done|].
  destruct s as [|d s]; [done|]. destruct (Re.chr_eq ic c d); [apply IH|done].
Qed.

Lemma match_lit_startswith w s :
  Str.lower w = w →
  match Re.match_lit true w s with Some _ => true | None => false end =
    Str.startswith w (Str.lower s).
Proof.
  revert s. induction w as [|c w IH]; intros s Hw; simpl; [done|].
  simpl in Hw. injection Hw as Hc Hw.
  destruct s as [|d s]; simpl; [done|].
  unfold Re.chr_eq. rewrite Hc.
  destruct (Ascii.eqb c (Str.lower_ascii d)); [by apply IH|done].
Qed.

Lemma match_dots_true n s : Re.match_dots n s (λ _, true) = true.
Proof.
  revert s. induction n as [|n IH]; intros [|c s]; simpl; try done.
  apply orb_true_r.
Qed.

Lemma existsb_words_cat (F : string → bool) (as_ bs : list string) :
  existsb F (flat_map (λ a, map (String.append a) bs) as_) =
    existsb (λ a, existsb (λ b, F (a ++ b)%string) bs) as_.
Proof.
  induction as_ as [|a as_ IH]; simpl; [done|].
  rewrite existsb_app, IH. f_equal. clear IH.
  induction bs as [|b bs IHb]; simpl; [done|]. by rewrite IHb.
Qed.

(** Matching an expression without [.] at the head of [s] is matching one
    of its words there. *)
Lemma match_here_words ic r s k :
  dotless r = true →
  Re.match_here ic r s k =
    existsb (λ w, match Re.match_lit ic w s with
                  | Some s' => k s'
                  | None => false
                  end) (regex_words r).
Proof.
  revert s k. induction r as [l|r1 IH1 r2 IH2|r1 IH1 r2 IH2|r1 IH1|n];
    intros s k Hd; simpl in *.
  - by rewrite orb_false_r.
  - apply andb_prop in Hd as [Hd1 Hd2].
    by rewrite existsb_app, IH1, IH2.
  - apply andb_prop in Hd as [Hd1 Hd2].
    rewrite IH1 by done. rewrite existsb_words_cat.
    apply existsb_ext_eq. intros a.
    destruct (Re.match_lit ic a s) as [s'|] eqn:Ha.
    + rewrite IH2 by done. apply existsb_ext_eq. intros b.
      by rewrite match_lit_app, Ha.
    + symmetry. clear IH2. induction (regex_words r2) as [|b bs IHb]; simpl; [done|].
      by rewrite match_lit_app, Ha, IHb.
  - rewrite existsb_app, IH1 by done. simpl. by rewrite orb_false_r.
  - done.
Qed.

Lemma search_from_contains ic r ws s :
  (∀ s, Re.match_here ic r s (λ _, true) =
        existsb (λ w, Str.startswith w (Str.lower s)) ws) →
  Re.search_from ic r s = contains_any ws s.
Proof.
  intros Hhere. unfold contains_any.
  induction s as [|c s IH]; simpl.
  - rewrite Hhere. simpl. rewrite orb_false_r.
    apply existsb_ext_eq. intros w. by rewrite orb_false_r.
  - rewrite Hhere, IH. simpl. by rewrite <- existsb_orb.
Qed.

(** A pattern [(?i)r.{0,n}] with [r] free of [.] and lowercase finds a match
    in [s] exactly when [s], lowercased, contains one of the words of [r]. *)
Lemma search_windowed_words r n s :
  dotless r = true →
  Forall (λ w, Str.lower w = w) (regex_words r) →
  Re.search (Re.Pattern true (Re.Cat r (Re.DotUpTo n))) s =
    contains_any (regex_words r) s.
Proof.
  intros Hd Hlow. unfold Re.search. simpl.
  apply search_from_contains. intros s0. simpl.
  rewrite match_here_words by done.
  induction Hlow as [|w ws Hw _ IH]; simpl; [done|].
  rewrite IH. f_equal.
  rewrite <- (match_lit_startswith w s0 Hw).
  destruct (Re.match_lit true w s0); [apply match_dots_true|done].
Qed.

Lemma elem_of_patterns clause_type pattern :
  (clause_type, pattern) ∈ patterns →
  ∃ r, pattern = Re.Pattern true (Re.Cat r (Re.DotUpTo 200))
     ∧ dotless r = true
     ∧ regex_words r = clause_stems clause_type
     ∧ Forall (λ w, Str.lower w = w) (regex_words r).
Proof.
  unfold patterns. intros Hin.
  repeat (apply elem_of_cons in Hin as [[= -> ->]|Hin];
          [eexists; split; [reflexivity|];
           split; [reflexivity|]; split; [reflexivity|];
           repeat constructor|]).
  by apply elem_of_nil in Hin.
Qed.

Lemma pattern_matches_stems_aux clause_type pattern s :
  (clause_type, pattern) ∈ patterns →
  Re.search pattern s = contains_any (clause_stems clause_type) s.
Proof.
  intros (r & -> & Hd & <- & Hlow)%elem_of_patterns.
  by apply search_windowed_words.
Qed.

(** X1. A sentence of ASCII text matches the pattern of a clause category
    exactly when, lowercased, it contains one of the key words of the
    category; the [.{0,200}] tail of the pattern never decides a match. *)
Theorem pattern_matches_stems (clause_type : string) (pattern : Re.pattern) (s : string) :
  (clause_type, pattern) ∈ patterns →
  isascii s = true →
  Re.search pattern s = contains_any (clause_stems clause_type) s.
Proof. intros Hp _. by apply pattern_matches_stems_aux. Qed.

(** X2. On ASCII text matching ignores letter case: a sentence and its
    lowercased form match the same clause patterns. *)
Theorem pattern_ignores_case (clause_type : string) (pattern : Re.pattern) (s : string) :
  (clause_type, pattern) ∈ patterns →
  isascii s = true →
  Re.search pattern (Str.lower s) = Re.search pattern s.
Proof.
  intros (r & -> & Hd & _ & Hlow)%elem_of_patterns _.
  rewrite !search_windowed_words by done.
  unfold contains_any. by rewrite lower_idem.
Qed.

(** ** ASCII text *)

Lemma isascii_lower s : isascii (Str.lower s) = isascii s.
Proof.
  induction s as [|c s IH]; [done|]. simpl. rewrite IH. f_equal.
  by destruct c as [[] [] [] [] [] [] [] []].
Qed.

Lemma isascii_lstrip s : isascii s = true → isascii (Str.lstrip s) = true.
Proof.
  induction s as [|c s IH]; [done|]. intros H. simpl.
  destruct (Str.isspace c); [|done].
  apply IH. simpl in H. destruct c. by apply andb_prop in H as [_ H].
Qed.

Lemma isascii_rstrip s : isascii s = true → isascii (Str.rstrip s) = true.
Proof.
  induction s as [|c s IH]; [done|]. intros H.
  assert (isascii (String c EmptyString) = true ∧ isascii s = true) as [Hc Hs].
  { simpl in *. destruct c. apply andb_prop in H as [-> H]. done. }
  simpl. specialize (IH Hs).
  destruct (Str.rstrip s) as [|d r].
  - by destruct (Str.isspace c).
  - simpl in *. destruct c. apply andb_prop in Hc as [-> _]. done.
Qed.

Lemma isascii_strip s : isascii s = true → isascii (Str.strip s) = true.
Proof. intros H. by apply isascii_rstrip, isascii_lstrip. Qed.

(** ** [str.strip] *)

Lemma lstrip_starts_clean s : starts_clean (Str.lstrip s).
Proof.
  induction s as [|c s IH]; simpl; [done|].
  destruct (Str.isspace c) eqn:Hc; [done|]. simpl. done.
Qed.

Lemma rstrip_cons c s :
  Str.rstrip (String c s) =
    match Str.rstrip s with
    | EmptyString => if Str.isspace c then EmptyString else String c EmptyString
    | r => String c r
    end.
Proof. done. Qed.

Lemma rstrip_ends_clean s : ends_clean (Str.rstrip s).
Proof.
  induction s as [|c s IH]; [done|]. rewrite rstrip_cons.
  destruct (Str.rstrip s) as [|d r].
  - by destruct (Str.isspace c) eqn:Hc.
  - done.
Qed.

Lemma rstrip_starts_clean s : starts_clean s → starts_clean (Str.rstrip s).
Proof.
  destruct s as [|c s]; [done|]. intros Hc. rewrite rstrip_cons. simpl in Hc.
  destruct (Str.rstrip s); [by rewrite Hc|done].
Qed.

Lemma lstrip_clean s : starts_clean s → Str.lstrip s = s.
Proof. destruct s as [|c s]; simpl; [done|]. by intros ->. Qed.

Lemma rstrip_idem s : Str.rstrip (Str.rstrip s) = Str.rstrip s.
Proof.
  induction s as [|c s IH]; [done|]. rewrite rstrip_cons.
  destruct (Str.rstrip s) as [|d r] eqn:Hr.
  - destruct (Str.isspace c) eqn:Hc; [done|]. simpl. by rewrite Hc.
  - rewrite rstrip_cons, IH. done.
Qed.

Lemma strip_clean s :
  starts_clean (Str.strip s) ∧ ends_clean (Str.strip s)
  ∧ Str.strip (Str.strip s) = Str.strip s.
Proof.
  unfold Str.strip. split; [|split].
  - apply rstrip_starts_clean, lstrip_starts_clean.
  - apply rstrip_ends_clean.
  - rewrite lstrip_clean by apply rstrip_starts_clean, lstrip_starts_clean.
    apply rstrip_idem.
Qed.

Section MoreClauses.

Variable nlp : string → Doc.

Lemma extract_clauses_lookup self document (m : gmap string (list string)) k l :
  extract_clauses nlp self document = Some m →
  m !! k = Some l →
  ∃ p, (k, p) ∈ patterns
     ∧ l = filter (λ s, Re.search p s = true) (stripped_sentences nlp document).
Proof.
  intros Hm Hl.
  destruct (extract_clauses_spec nlp self document) as (m' & Hm' & Hd & Hp).
  rewrite Hm in Hm'. injection Hm' as <-.
  assert (k ∈ patterns.*1) as Hin.
  { rewrite patterns_keys. apply elem_of_dom_2 in Hl. rewrite Hd in Hl. set_solver. }
  apply list_elem_of_fmap in Hin as ([k' p] & -> & Hin).
  simpl in *. exists p. split; [done|]. rewrite (Hp _ _ Hin) in Hl. by injection Hl.
Qed.

(** X3. For a document whose sentences are ASCII text, the list
    [extract_clauses] returns for a category holds exactly the sentences that
    contain, ignoring case, a key word of that category, in document order: a
    sentence without a key word of the category is never listed under it. *)
Theorem extract_clauses_by_stems (self : LegalDocumentProcessor) (document : string) :
  Forall (λ sent, isascii (sent_text sent) = true) (sents (nlp document)) →
  ∃ m : gmap string (list string),
    extract_clauses nlp self document = Some m
    ∧ ∀ clause_type l, m !! clause_type = Some l →
        l = filter (λ s, contains_any (clause_stems clause_type) s = true)
                   (stripped_sentences nlp document).
Proof.
  intros _.
  destruct (extract_clauses_spec nlp self document) as (m & Hm & _).
  exists m. split; [done|]. intros k l Hl.
  destruct (extract_clauses_lookup _ _ _ _ _ Hm Hl) as (p & Hp & ->).
  apply list_filter_iff. intros s. by rewrite (pattern_matches_stems_aux k p s Hp).
Qed.

(** X4. For a document whose sentences are ASCII text, every sentence
    [extract_clauses] returns is ASCII text that neither starts nor ends with
    white space, and stripping it again changes nothing. *)
Theorem extract_clauses_stripped (self : LegalDocumentProcessor) (document : string) :
  Forall (λ sent, isascii (sent_text sent) = true) (sents (nlp document)) →
  ∃ m : gmap string (list string),
    extract_clauses nlp self document = Some m
    ∧ ∀ clause_type l s, m !! clause_type = Some l → s ∈ l →
        isascii s = true ∧ starts_clean s ∧ ends_clean s ∧ Str.strip s = s.
Proof.
  intros Hascii.
  destruct (extract_clauses_spec nlp self document) as (m & Hm & _).
  exists m. split; [done|]. intros k l s Hl Hs.
  destruct (extract_clauses_lookup _ _ _ _ _ Hm Hl) as (p & _ & ->).
  apply list_elem_of_filter in Hs as [_ Hs]. unfold stripped_sentences in Hs.
  change (map ?f ?l) with (f <$> l) in Hs.
  apply list_elem_of_fmap in Hs as (sent & -> & Hsent).
  split; [|apply strip_clean].
  apply isascii_strip. by apply (proj1 (Forall_forall _ _) Hascii).
Qed.

End MoreClauses.

(** ** More on the term ranking *)

Lemma slice_to_prefix {A} (l : list A) n : slice_to l n `prefix_of` l.
Proof. destruct (slice_to_take l n) as [m ->]. apply prefix_take. Qed.

Lemma slice_to_nested {A} (l : list A) n n' :
  (n ≤ n')%Z → (0 ≤ n)%Z ∨ (n' < 0)%Z →
  slice_to l n `prefix_of` slice_to l n'.
Proof.
  intros Hle Hsign. unfold slice_to.
  destruct (Z.ltb_spec n 0), (Z.ltb_spec n' 0); try lia.
  - rewrite <- (Nat.min_l (Z.to_nat (Z.of_nat (length l) + n))
                          (Z.to_nat (Z.of_nat (length l) + n'))) by lia.
    rewrite <- take_take. apply prefix_take.
  - rewrite <- (Nat.min_l (Z.to_nat n) (Z.to_nat n')) by lia.
    rewrite <- take_take. apply prefix_take.
Qed.

Lemma slice_to_length_eq {A} (l : list A) n :
  Z.of_nat (length (slice_to l n)) =
    if (n <? 0)%Z then Z.max 0 (Z.of_nat (length l) + n)
    else Z.min n (Z.of_nat (length l)).
Proof.
  unfold slice_to. destruct (Z.ltb_spec n 0); rewrite length_take; lia.
Qed.

Lemma Counter_NoDup l : NoDup (Counter l).*1.
Proof. rewrite Counter_keys. apply first_seen_NoDup. Qed.

Lemma count_of_perm t l1 l2 : l1 ≡ₚ l2 → count_of t l1 = count_of t l2.
Proof. intros H. unfold count_of. by rewrite H. Qed.

Lemma elem_of_count_of t l : t ∈ l ↔ (0 < count_of t l)%Z.
Proof.
  split; [apply count_of_elem|]. intros Hpos.
  destruct (decide (t ∈ l)) as [|Hn]; [done|].
  rewrite (count_of_not_elem _ _ Hn) in Hpos. lia.
Qed.

Section MoreTermFrequency.

Variable nlp : string → Doc.

Lemma all_terms_app self docs1 docs2 :
  all_terms nlp self (docs1 ++ docs2) =
    all_terms nlp self docs1 ++ all_terms nlp self docs2.
Proof. unfold all_terms. by rewrite map_app, concat_app. Qed.

Lemma all_terms_perm self docs1 docs2 :
  docs1 ≡ₚ docs2 → all_terms nlp self docs1 ≡ₚ all_terms nlp self docs2.
Proof.
  intros H. unfold all_terms. rewrite <- !flat_map_concat_map.
  by apply Permutation_flat_map.
Qed.

Lemma legal_term_freq_NoDup self documents :
  NoDup (legal_term_freq nlp self documents).*1.
Proof. rewrite legal_term_freq_all. apply Counter_NoDup. Qed.

Lemma elem_of_legal_term_freq self documents t n :
  (t, n) ∈ legal_term_freq nlp self documents ↔
  (0 < n)%Z ∧ n = count_of t (all_terms nlp self documents).
Proof.
  rewrite legal_term_freq_all, elem_of_Counter, elem_of_count_of.
  split; intros [H ->]; done.
Qed.

Lemma elem_of_ranked self documents top_n x :
  x ∈ slice_to (sorted_by_count_desc (legal_term_freq nlp self documents)) top_n →
  x ∈ legal_term_freq nlp self documents.
Proof.
  intros Hin. eapply elem_of_sublist in Hin; [|apply slice_to_sublist].
  by rewrite sorted_by_count_desc_perm in Hin.
Qed.

(** The occurrences of a vocabulary term among the terms of a document are
    the noun chunks whose lowercased text is the term. *)
Lemma count_of_process_single_doc self document t :
  any_legal_term self t = true →
  count_of t (_process_single_doc nlp self document) =
    Z.of_nat (length (filter (λ c, Str.lower c = t)
                             (map chunk_text (noun_chunks (nlp document))))).
Proof.
  intros Ht. rewrite process_single_doc_spec. unfold count_of. f_equal.
  induction (noun_chunks (nlp document)) as [|c cs IH]; [done|].
  simpl map at 2. rewrite (filter_cons _ (chunk_text c)), (filter_cons _ c).
  destruct (decide (Str.lower (chunk_text c) = t)) as [Heq|Hne].
  - rewrite decide_True by (by rewrite <- any_legal_term_lower, Heq).
    simpl map. rewrite filter_cons, decide_True by done. simpl. by rewrite IH.
  - case_decide; [|done].
    simpl map. by rewrite filter_cons, decide_False.
Qed.

Lemma count_of_all_terms self documents t :
  any_legal_term self t = true →
  count_of t (all_terms nlp self documents) =
    Z.of_nat (length (filter (λ c, Str.lower c = t) (corpus_chunks nlp documents))).
Proof.
  intros Ht. unfold all_terms, corpus_chunks.
  induction documents as [|d ds IH]; [done|]. simpl.
  rewrite count_of_app, IH, count_of_process_single_doc by done.
  rewrite filter_app, length_app. lia.
Qed.

(** X5. For a corpus whose noun chunks are ASCII text, the terms of a ranked
    list are pairwise distinct, ASCII and lowercase, and the count of a term
    is the number of noun chunks of the whole corpus whose lowercased text is
    the term. *)
Theorem analyze_term_frequency_counts (self : LegalDocumentProcessor)
    (completion : list nat) (documents : list string) (top_n : Z) :
  Forall (λ c, isascii c = true) (corpus_chunks nlp documents) →
  complete completion documents →
  ∃ r, analyze_term_frequency nlp self completion documents top_n = Some r
     ∧ NoDup r.*1
     ∧ ∀ term count, (term, count) ∈ r →
         isascii term = true
         ∧ Str.lower term = term
         ∧ count = Z.of_nat (length (filter (λ c, Str.lower c = term)
                                            (corpus_chunks nlp documents))).
Proof.
  intros Hascii Hc. eexists. split; [by apply analyze_term_frequency_spec|]. split.
  - eapply sublist_NoDup; [|apply fmap_sublist, slice_to_sublist].
    rewrite sorted_by_count_desc_perm. apply legal_term_freq_NoDup.
  - intros term count Hin. apply elem_of_ranked in Hin.
    apply elem_of_legal_term_freq in Hin as [Hpos ->].
    apply elem_of_count_of in Hpos.
    assert (∃ c, c ∈ corpus_chunks nlp documents ∧ term = Str.lower c)
      as (c & Hcin & ->).
    { unfold all_terms in Hpos. apply elem_of_concat in Hpos as (l & Hl & Ht).
      change (map ?f ?l) with (f <$> l) in Hl.
      apply list_elem_of_fmap in Hl as (d & -> & Hd).
      rewrite process_single_doc_spec in Ht.
      change (map ?f ?l) with (f <$> l) in Ht.
      apply list_elem_of_fmap in Ht as (c & -> & Hcin).
      apply list_elem_of_filter in Hcin as [_ Hcin].
      exists (chunk_text c). split; [|done].
      unfold corpus_chunks. apply elem_of_concat.
      exists (map chunk_text (noun_chunks (nlp d))). split.
      - change (map ?f documents) with (f <$> documents).
        apply list_elem_of_fmap. by exists d.
      - change (map ?f ?l) with (f <$> l). apply list_elem_of_fmap. by exists c. }
    split; [|split].
    + rewrite isascii_lower. by apply (proj1 (Forall_forall _ _) Hascii).
    + apply lower_idem.
    + apply count_of_all_terms. by eapply all_terms_legal.
Qed.

(** X6. The ranked list is a prefix of the full ranking (the one a [top_n]
    equal to the number of distinct terms returns), and its length is
    [min top_n N] for [top_n >= 0] and [max 0 (N + top_n)] for a negative
    [top_n], [N] being the number of distinct terms; so [top_n = 0] returns
    the empty list. *)
Theorem analyze_term_frequency_length (self : LegalDocumentProcessor)
    (completion : list nat) (documents : list string) (top_n : Z) :
  complete completion documents →
  ∃ r full,
    analyze_term_frequency nlp self completion documents top_n = Some r
    ∧ analyze_term_frequency nlp self completion documents
        (Z.of_nat (length (legal_term_freq nlp self documents))) = Some full
    ∧ full ≡ₚ legal_term_freq nlp self documents
    ∧ r `prefix_of` full
    ∧ Z.of_nat (length r) =
        (if (top_n <? 0)%Z then Z.max 0 (Z.of_nat (length full) + top_n)
         else Z.min top_n (Z.of_nat (length full)))
    ∧ (top_n = 0%Z → r = []).
Proof.
  intros Hc. eexists _, _.
  split; [by apply analyze_term_frequency_spec|].
  split; [by apply analyze_term_frequency_spec|].
  rewrite (slice_to_all (sorted_by_count_desc _))
    by (by rewrite sorted_by_count_desc_perm).
  split; [apply sorted_by_count_desc_perm|].
  split; [apply slice_to_prefix|].
  split; [apply slice_to_length_eq|].
  by intros ->.
Qed.

(** X7. Raising [top_n] only appends entries: for [n <= n'] of the same
    sign the list for [n] is a prefix of the list for [n']. *)
Theorem analyze_term_frequency_nested (self : LegalDocumentProcessor)
    (completion : list nat) (documents : list string) (n n' : Z) :
  complete completion documents →
  (n ≤ n')%Z →
  (0 ≤ n)%Z ∨ (n' < 0)%Z →
  ∃ r r',
    analyze_term_frequency nlp self completion documents n = Some r
    ∧ analyze_term_frequency nlp self completion documents n' = Some r'
    ∧ r `prefix_of` r'.
Proof.
  intros Hc Hle Hsign. eexists _, _.
  split; [by apply analyze_term_frequency_spec|].
  split; [by apply analyze_term_frequency_spec|].
  by apply slice_to_nested.
Qed.

(** X8. Counts add up over corpora: when nothing is cut off, the run on
    [docs1 ++ docs2] lists a term exactly when it occurs in one of the two
    corpora, with the sum of its numbers of occurrences in each. *)
Theorem analyze_term_frequency_additive (self : LegalDocumentProcessor)
    (completion : list nat) (docs1 docs2 : list string) (top_n : Z) :
  complete completion (docs1 ++ docs2) →
  (Z.of_nat (length (legal_term_freq nlp self (docs1 ++ docs2))) ≤ top_n)%Z →
  ∃ r, analyze_term_frequency nlp self completion (docs1 ++ docs2) top_n = Some r
     ∧ ∀ term count, (term, count) ∈ r ↔
         (0 < count)%Z
         ∧ count = (count_of term (all_terms nlp self docs1)
                    + count_of term (all_terms nlp self docs2))%Z.
Proof.
  intros Hc Hn. eexists. split; [by apply analyze_term_frequency_spec|].
  intros term count.
  rewrite slice_to_all by (by rewrite sorted_by_count_desc_perm).
  rewrite sorted_by_count_desc_perm, elem_of_legal_term_freq.
  by rewrite all_terms_app, count_of_app.
Qed.

(** X9. The order of the documents only affects the order of the entries:
    when nothing is cut off, the runs on two permutations of a corpus return
    permutations of the same entries. *)
Theorem analyze_term_frequency_permuted (self : LegalDocumentProcessor)
    (completion completion' : list nat) (documents documents' : list string)
    (top_n : Z) :
  documents ≡ₚ documents' →
  complete completion documents →
  complete completion' documents' →
  (Z.of_nat (length (legal_term_freq nlp self documents)) ≤ top_n)%Z →
  ∃ r r',
    analyze_term_frequency nlp self completion documents top_n = Some r
    ∧ analyze_term_frequency nlp self completion' documents' top_n = Some r'
    ∧ r ≡ₚ r'.
Proof.
  intros Hp Hc Hc' Hn.
  assert (legal_term_freq nlp self documents ≡ₚ legal_term_freq nlp self documents')
    as Hperm.
  { apply NoDup_Permutation.
    - eapply NoDup_fmap_1, legal_term_freq_NoDup.
    - eapply NoDup_fmap_1, legal_term_freq_NoDup.
    - intros [t n]. rewrite !elem_of_legal_term_freq.
      by rewrite (count_of_perm t _ _ (all_terms_perm self _ _ Hp)). }
  eexists _, _.
  split; [by apply analyze_term_frequency_spec|].
  split; [by apply analyze_term_frequency_spec|].
  rewrite !slice_to_all.
  - by rewrite !sorted_by_count_desc_perm.
  - by rewrite sorted_by_count_desc_perm, <- Hperm.
  - by rewrite sorted_by_count_desc_perm.
Qed.

(** X10. A document none of whose noun chunks contains a vocabulary entry
    does not change the result, wherever it stands in the corpus. *)
Theorem analyze_term_frequency_neutral (self : LegalDocumentProcessor)
    (completion completion' : list nat) (docs1 docs2 : list string) (d : string)
    (top_n : Z) :
  Forall (λ chunk, any_legal_term self (chunk_text chunk) = false)
         (noun_chunks (nlp d)) →
  complete completion (docs1 ++ d :: docs2) →
  complete completion' (docs1 ++ docs2) →
  analyze_term_frequency nlp self completion (docs1 ++ d :: docs2) top_n =
    analyze_term_frequency nlp self completion' (docs1 ++ docs2) top_n.
Proof.
  intros Hd Hc Hc'. rewrite !analyze_term_frequency_spec by done.
  do 3 f_equal. unfold legal_term_freq. do 2 f_equal.
  rewrite (all_terms_app self docs1 (d :: docs2)), all_terms_app.
  f_equal. unfold all_terms. simpl.
  rewrite process_single_doc_spec.
  replace (filter _ (noun_chunks (nlp d))) with (@nil Chunk); [done|].
  symmetry. induction Hd as [|c cs Hc0 _ IH]; [done|].
  rewrite filter_cons, decide_False; [done|]. by rewrite Hc0.
Qed.

End MoreTermFrequency.

(** ** More on entities, statistics and the summary *)

Lemma total_entities_insert (m : gmap string (list string)) k l :
  (total_entities (<[k := l]> m) + length (default [] (m !! k)) =
   total_entities m + length l)%nat.
Proof.
  unfold total_entities.
  destruct (m !! k) as [l0|] eqn:Hk; simpl.
  - rewrite <- (insert_delete_eq m).
    rewrite map_fold_insert_L; [|intros; lia|apply lookup_delete_eq].
    rewrite (map_fold_delete_L _ _ k l0 m); [lia|intros; lia|done].
  - rewrite map_fold_insert_L; [lia|intros; lia|done].
Qed.

Lemma extract_entities_total (es : list Entity) (entities : gmap string (list string)) :
  ∃ m, fold_left
         (λ acc ent, match acc with
                     | Some entities => add_entity entities ent
                     | None => None
                     end) es (Some entities) = Some m
     ∧ total_entities m = (total_entities entities + length es)%nat.
Proof.
  revert entities. induction es as [|ent es IH]; intros entities; simpl.
  - exists entities. split; [done|lia].
  - rewrite add_entity_spec.
    destruct (IH (<[ent_label_ ent :=
                      default [] (entities !! ent_label_ ent) ++ [ent_text ent]]>
                    entities)) as (m & -> & Hm).
    exists m. split; [done|]. rewrite Hm.
    pose proof (total_entities_insert entities (ent_label_ ent)
                  (default [] (entities !! ent_label_ ent) ++ [ent_text ent])) as H.
    rewrite length_app in H. simpl in H. lia.
Qed.

Lemma entities_of_nonempty label es :
  entities_of label es ≠ [] ↔ label ∈ map ent_label_ es.
Proof.
  unfold entities_of. induction es as [|e es IH]; simpl.
  - split; [done|]. by intros ?%elem_of_nil.
  - rewrite filter_cons, elem_of_cons. case_decide as Hl; simpl.
    + split; [by left|done].
    + rewrite IH. split; [by right|]. by intros [?|?].
Qed.

Lemma extract_entities_groups_aux self doc :
  ∃ m : gmap string (list string),
    _extract_entities self doc = Some m
    ∧ total_entities m = length (ents doc).
Proof.
  destruct (extract_entities_total (ents doc) ∅) as (m & Hm & Ht).
  exists m. split; [done|].
  rewrite Ht. unfold total_entities. by rewrite map_fold_empty.
Qed.

(** X12. [_extract_entities] never fails; its keys are exactly the labels
    that occur in the document, no key maps to an empty list, each list is
    the texts of the entities of that label in document order, and the lists
    hold as many texts in total as the document has entities. *)
Theorem extract_entities_groups (self : LegalDocumentProcessor) (doc : Doc) :
  ∃ m : gmap string (list string),
    _extract_entities self doc = Some m
    ∧ dom m = list_to_set (map ent_label_ (ents doc))
    ∧ (∀ label l, m !! label = Some l →
         l ≠ [] ∧ l = entities_of label (ents doc))
    ∧ total_entities m = length (ents doc).
Proof.
  destruct (extract_entities_spec self doc) as (m & Hm & Hl).
  exists m. split; [done|]. split; [|split].
  - apply set_eq. intros k.
    rewrite elem_of_dom, elem_of_list_to_set, <- entities_of_nonempty, Hl.
    destruct (entities_of k (ents doc)).
    + split; [by intros [? ?]|done].
    + split; [done|by eexists].
  - intros label l Hlab. rewrite Hl in Hlab.
    destruct (entities_of label (ents doc)); [done|]. by injection Hlab as <-.
  - destruct (extract_entities_groups_aux self doc) as (m' & Hm' & Ht).
    rewrite Hm in Hm'. by injection Hm' as <-.
Qed.

Section MoreInsights.

Variable nlp : string → Doc.

(** X13. The [key_clauses] of [get_document_insights] are what
    [extract_clauses] returns for the same document, and no clause list is
    longer than the [sentences] statistic; the [entities] statistic holds as
    many texts as the document has entities. *)
Theorem get_document_insights_consistent (self : LegalDocumentProcessor)
    (document : string) :
  ∃ insights,
    get_document_insights nlp self document = Some insights
    ∧ extract_clauses nlp self document = Some (key_clauses insights)
    ∧ (∀ clause_type l, key_clauses insights !! clause_type = Some l →
         (length l ≤ sentences (document_stats insights))%nat)
    ∧ total_entities (entities (document_stats insights)) =
        length (ents (nlp document)).
Proof.
  destruct (get_document_insights_spec nlp self document)
    as (clauses & entities_ & Hc & He & ->).
  eexists. split; [done|]. simpl. split; [done|]. split.
  - intros k l Hl.
    destruct (extract_clauses_lookup nlp _ _ _ _ _ Hc Hl) as (p & _ & ->).
    etransitivity; [apply length_filter|].
    unfold stripped_sentences. by rewrite length_map.
  - destruct (extract_entities_groups_aux self (nlp document)) as (m & Hm & Ht).
    rewrite He in Hm. by injection Hm as <-.
Qed.

End MoreInsights.

(** ** Substrings of a join *)

Lemma startswith_app s t : Str.startswith s (s ++ t)%string = true.
Proof. induction s as [|c s IH]; simpl; [done|]. by rewrite Ascii.eqb_refl. Qed.

Lemma startswith_refl s : Str.startswith s s = true.
Proof. induction s as [|c s IH]; simpl; [done|]. by rewrite Ascii.eqb_refl. Qed.

Lemma startswith_app_l s h b :
  Str.startswith s h = true → Str.startswith s (h ++ b)%string = true.
Proof.
  revert h. induction s as [|c s IH]; intros h; simpl; [done|].
  destruct h as [|d h]; simpl; [done|].
  destruct (Ascii.eqb c d); [apply IH|done].
Qed.

Lemma contains_here s h : Str.startswith s h = true → Str.contains s h = true.
Proof. intros H. destruct h; simpl; by rewrite H. Qed.

Lemma contains_app_r s a h :
  Str.contains s h = true → Str.contains s (a ++ h)%string = true.
Proof.
  intros H. induction a as [|c a IH]; simpl; [done|].
  rewrite IH. apply orb_true_r.
Qed.

Lemma contains_app_l s h b :
  Str.contains s h = true → Str.contains s (h ++ b)%string = true.
Proof.
  induction h as [|c h IH]; simpl.
  - rewrite orb_false_r. intros H. by apply contains_here, (startswith_app_l s "").
  - intros [H|H]%orb_prop.
    + apply orb_true_iff. left. by apply (startswith_app_l s (String c h)).
    + rewrite IH by done. apply orb_true_r.
Qed.

Lemma contains_join sep l s : s ∈ l → Str.contains s (Str.join sep l) = true.
Proof.
  induction l as [|x l IH]; [by intros ?%elem_of_nil|].
  intros [->|Hin]%elem_of_cons.
  - destruct l as [|y l]; simpl.
    + apply contains_here, startswith_refl.
    + apply contains_here, startswith_app.
  - destruct l as [|y l]; [by apply elem_of_nil in Hin|].
    change (Str.join sep (x :: y :: l))
      with (x ++ sep ++ Str.join sep (y :: l))%string.
    by apply contains_app_r, contains_app_r, IH.
Qed.

Section MoreSummary.

Variable nlp : string → Doc.

(** X14. The summary quotes its sentences verbatim: each of the first three
    sentences with more than three noun chunks occurs in it as a substring,
    text unchanged (not stripped). *)
Theorem get_document_insights_summary_quotes (self : LegalDocumentProcessor)
    (document : string) :
  ∃ insights,
    get_document_insights nlp self document = Some insights
    ∧ ∀ s, s ∈ take 3 (dense_sentences (nlp document)) →
        Str.contains s (summary insights) = true.
Proof.
  destruct (get_document_insights_spec nlp self document) as (c & e & _ & _ & ->).
  eexists. split; [done|]. simpl. intros s Hs.
  rewrite generate_summary_spec. by apply contains_join.
Qed.

End MoreSummary.

(** * The further properties on the sample documents *)

Example termination_pattern_listed : ("termination", termination_pattern) ∈ patterns.
Proof. by left. Defined.

Example complete_012 :
  complete [0; 1; 2] ([Sample.policy] ++ [Sample.contract; Sample.policy]).
Proof. unfold complete. simpl. reflexivity. Defined.

Lemma pattern_matches_stems_witness :
  ("termination", termination_pattern) ∈ patterns
  ∧ isascii "This Agreement may be TERMINATED." = true
  ∧ Re.search termination_pattern "This Agreement may be TERMINATED." =
      contains_any (clause_stems "termination") "This Agreement may be TERMINATED.".
Proof.
  split; [exact termination_pattern_listed|]. split; [reflexivity|].
  apply (pattern_matches_stems "termination" termination_pattern
           "This Agreement may be TERMINATED."
           termination_pattern_listed eq_refl).
Defined.

Lemma pattern_ignores_case_witness :
  ("termination", termination_pattern) ∈ patterns
  ∧ isascii "Either party may CANCEL." = true
  ∧ Re.search termination_pattern (Str.lower "Either party may CANCEL.") =
      Re.search termination_pattern "Either party may CANCEL.".
Proof.
  split; [exact termination_pattern_listed|]. split; [reflexivity|].
  apply (pattern_ignores_case "termination" termination_pattern
           "Either party may CANCEL." termination_pattern_listed eq_refl).
Defined.

Example contract_sentences_ascii :
  Forall (λ sent, isascii (sent_text sent) = true)
         (sents (Sample.nlp Sample.contract)).
Proof. vm_compute. repeat constructor. Defined.

Example corpus_chunks_ascii :
  Forall (λ c, isascii c = true)
         (corpus_chunks Sample.nlp [Sample.policy; Sample.contract]).
Proof. vm_compute. repeat constructor. Defined.

Lemma extract_clauses_by_stems_witness :
  Forall (λ sent, isascii (sent_text sent) = true)
         (sents (Sample.nlp Sample.contract))
  ∧ ∃ m : gmap string (list string),
      extract_clauses Sample.nlp __init__ Sample.contract = Some m
      ∧ ∀ clause_type l, m !! clause_type = Some l →
          l = filter (λ s, contains_any (clause_stems clause_type) s = true)
                     (stripped_sentences Sample.nlp Sample.contract).
Proof.
  split; [exact contract_sentences_ascii|].
  apply (extract_clauses_by_stems Sample.nlp __init__ Sample.contract
           contract_sentences_ascii).
Defined.

Lemma extract_clauses_stripped_witness :
  Forall (λ sent, isascii (sent_text sent) = true)
         (sents (Sample.nlp Sample.contract))
  ∧ ∃ m : gmap string (list string),
      extract_clauses Sample.nlp __init__ Sample.contract = Some m
      ∧ ∀ clause_type l s, m !! clause_type = Some l → s ∈ l →
          isascii s = true ∧ starts_clean s ∧ ends_clean s ∧ Str.strip s = s.
Proof.
  split; [exact contract_sentences_ascii|].
  apply (extract_clauses_stripped Sample.nlp __init__ Sample.contract
           contract_sentences_ascii).
Defined.

Lemma analyze_term_frequency_counts_witness :
  Forall (λ c, isascii c = true)
         (corpus_chunks Sample.nlp [Sample.policy; Sample.contract])
  ∧ complete [1; 0] [Sample.policy; Sample.contract]
  ∧ ∃ r, analyze_term_frequency Sample.nlp __init__ [1; 0]
           [Sample.policy; Sample.contract] 10 = Some r
       ∧ NoDup r.*1
       ∧ ∀ term count, (term, count) ∈ r →
           isascii term = true
           ∧ Str.lower term = term
           ∧ count = Z.of_nat (length (filter (λ c, Str.lower c = term)
                        (corpus_chunks Sample.nlp [Sample.policy; Sample.contract]))).
Proof.
  split; [exact corpus_chunks_ascii|]. split; [exact complete_10|].
  apply (analyze_term_frequency_counts Sample.nlp __init__ [1; 0]
           [Sample.policy; Sample.contract] 10 corpus_chunks_ascii complete_10).
Defined.

Lemma analyze_term_frequency_length_witness :
  complete [0] [Sample.policy]
  ∧ ∃ r full,
      analyze_term_frequency Sample.nlp __init__ [0] [Sample.policy] (-1) = Some r
      ∧ analyze_term_frequency Sample.nlp __init__ [0] [Sample.policy]
          (Z.of_nat (length (legal_term_freq Sample.nlp __init__ [Sample.policy])))
          = Some full
      ∧ full ≡ₚ legal_term_freq Sample.nlp __init__ [Sample.policy]
      ∧ r `prefix_of` full
      ∧ Z.of_nat (length r) =
          (if (-1 <? 0)%Z then Z.max 0 (Z.of_nat (length full) + -1)
           else Z.min (-1) (Z.of_nat (length full)))
      ∧ ((-1)%Z = 0%Z → r = []).
Proof.
  split; [exact complete_0|].
  apply (analyze_term_frequency_length Sample.nlp __init__ [0] [Sample.policy] (-1)
           complete_0).
Defined.

Lemma analyze_term_frequency_nested_witness :
  complete [0] [Sample.policy]
  ∧ (1 ≤ 3)%Z
  ∧ ((0 ≤ 1)%Z ∨ (3 < 0)%Z)
  ∧ ∃ r r',
      analyze_term_frequency Sample.nlp __init__ [0] [Sample.policy] 1 = Some r
      ∧ analyze_term_frequency Sample.nlp __init__ [0] [Sample.policy] 3 = Some r'
      ∧ r `prefix_of` r'.
Proof.
  split; [exact complete_0|]. split; [lia|]. split; [left; lia|].
  apply (analyze_term_frequency_nested Sample.nlp __init__ [0] [Sample.policy] 1 3
           complete_0); [lia|left; lia].
Defined.

Lemma analyze_term_frequency_additive_witness :
  complete [0; 1; 2] ([Sample.policy] ++ [Sample.contract; Sample.policy])
  ∧ (Z.of_nat (length (legal_term_freq Sample.nlp __init__
                         ([Sample.policy] ++ [Sample.contract; Sample.policy])))
     ≤ 10)%Z
  ∧ ∃ r, analyze_term_frequency Sample.nlp __init__ [0; 1; 2]
           ([Sample.policy] ++ [Sample.contract; Sample.policy]) 10 = Some r
       ∧ ∀ term count, (term, count) ∈ r ↔
           (0 < count)%Z
           ∧ count = (count_of term (all_terms Sample.nlp __init__ [Sample.policy])
                      + count_of term (all_terms Sample.nlp __init__
                                         [Sample.contract; Sample.policy]))%Z.
Proof.
  split; [exact complete_012|]. split; [by vm_compute|].
  apply (analyze_term_frequency_additive Sample.nlp __init__ [0; 1; 2]
           [Sample.policy] [Sample.contract; Sample.policy] 10 complete_012).
  by vm_compute.
Defined.

Lemma analyze_term_frequency_permuted_witness :
  [Sample.policy; Sample.contract] ≡ₚ [Sample.contract; Sample.policy]
  ∧ complete [0; 1] [Sample.policy; Sample.contract]
  ∧ complete [1; 0] [Sample.contract; Sample.policy]
  ∧ (Z.of_nat (length (legal_term_freq Sample.nlp __init__
                         [Sample.policy; Sample.contract])) ≤ 10)%Z
  ∧ ∃ r r',
      analyze_term_frequency Sample.nlp __init__ [0; 1]
        [Sample.policy; Sample.contract] 10 = Some r
      ∧ analyze_term_frequency Sample.nlp __init__ [1; 0]
          [Sample.contract; Sample.policy] 10 = Some r'
      ∧ r ≡ₚ r'.
Proof.
  split; [apply Permutation_swap|]. split; [exact complete_01|].
  split; [exact complete_10|]. split; [by vm_compute|].
  apply (analyze_term_frequency_permuted Sample.nlp __init__ [0; 1] [1; 0]
           [Sample.policy; Sample.contract] [Sample.contract; Sample.policy] 10);
    [apply Permutation_swap|exact complete_01|exact complete_10|by vm_compute].
Defined.

Example contract_has_no_legal_chunk :
  Forall (λ chunk, any_legal_term __init__ (chunk_text chunk) = false)
         (noun_chunks (Sample.nlp Sample.contract)).
Proof. vm_compute. repeat constructor. Defined.

Lemma analyze_term_frequency_neutral_witness :
  Forall (λ chunk, any_legal_term __init__ (chunk_text chunk) = false)
         (noun_chunks (Sample.nlp Sample.contract))
  ∧ complete [1; 0] ([Sample.policy] ++ Sample.contract :: [])
  ∧ complete [0] ([Sample.policy] ++ [])
  ∧ analyze_term_frequency Sample.nlp __init__ [1; 0]
      ([Sample.policy] ++ Sample.contract :: []) 10 =
    analyze_term_frequency Sample.nlp __init__ [0] ([Sample.policy] ++ []) 10.
Proof.
  split; [exact contract_has_no_legal_chunk|]. split; [exact complete_10|].
  split; [exact complete_0|].
  apply (analyze_term_frequency_neutral Sample.nlp __init__ [1; 0] [0]
           [Sample.policy] [] Sample.contract 10
           contract_has_no_legal_chunk complete_10 complete_0).
Defined.

(** ** The entries kept outrank the entries cut off *)

Section Selection.

Variable nlp : string → Doc.

(** X15. Whatever [top_n] is, an entry of the ranked list has a count at
    least as high as every entry of the frequency table that was cut off. *)
Theorem analyze_term_frequency_selects_top (self : LegalDocumentProcessor)
    (completion : list nat) (documents : list string) (top_n : Z) :
  complete completion documents →
  ∃ r, analyze_term_frequency nlp self completion documents top_n = Some r
     ∧ ∀ kept cut,
         kept ∈ r →
         cut ∈ legal_term_freq nlp self documents → cut ∉ r →
         (cut.2 ≤ kept.2)%Z.
Proof.
  intros Hc. eexists. split; [by apply analyze_term_frequency_spec|].
  intros kept cut Hkept Hcut Hout.
  pose proof (sorted_by_count_desc_sorted (legal_term_freq nlp self documents)) as Hs.
  rewrite <- (sorted_by_count_desc_perm (legal_term_freq nlp self documents)) in Hcut.
  destruct (slice_to_take
              (sorted_by_count_desc (legal_term_freq nlp self documents)) top_n)
    as [m Hm].
  rewrite Hm in Hkept, Hout.
  rewrite <- (take_drop m (sorted_by_count_desc _)) in Hs, Hcut.
  apply elem_of_app in Hcut as [Hcut|Hcut]; [done|].
  apply (StronglySorted_app_1_elem_of _ _ _ kept cut Hs Hkept Hcut).
Qed.

End Selection.

Lemma analyze_term_frequency_selects_top_witness :
  complete [0] [Sample.policy]
  ∧ ∃ r, analyze_term_frequency Sample.nlp __init__ [0] [Sample.policy] 1 = Some r
       ∧ ∀ kept cut,
           kept ∈ r →
           cut ∈ legal_term_freq Sample.nlp __init__ [Sample.policy] → cut ∉ r →
           (cut.2 ≤ kept.2)%Z.
Proof.
  split; [exact complete_0|].
  apply (analyze_term_frequency_selects_top Sample.nlp __init__ [0] [Sample.policy] 1
           complete_0).
Defined.
